(** * textacy.spacy_utils: a shallow embedding and its verification

    The module under study is a set of small utility functions over
    annotated documents: token classifiers, span-boundary resolvers,
    subject/object extraction by conjunct closure, and span merging.

    A Python token object is a handle [(doc, i)]: a document together with
    a position in it.  Every function that takes a token therefore takes a
    document [d] and an index [i]; attributes are read from [d] at [i].
    Python integers are unbounded, so computed indices live in [Z]. *)

From stdpp Require Import base list strings gmap sorting.
From Stdlib Require Import ZArith Lia Ascii.

Open Scope string_scope.
Open Scope list_scope.
Open Scope nat_scope.

(** ** Outcomes of a call

    [Raise] is a Python exception reaching the caller.  [OutOfFuel] is not
    a Python outcome: it only says that the step budget given to a loop of
    the model was too small to decide what the loop does. *)

Inductive exn : Type :=
  | ValueError (msg : string)
  | IndexError (msg : string)
  | TypeError (msg : string)
  | RuntimeError (msg : string).

Inductive outcome (A : Type) : Type :=
  | Ok (a : A)
  | Raise (e : exn)
  | OutOfFuel.

Arguments Ok {A} a.
Arguments Raise {A} e.
Arguments OutOfFuel {A}.

Global Instance outcome_ret : MRet outcome := λ A a, Ok a.

Global Instance outcome_bind : MBind outcome := λ A B k m,
  match m with
  | Ok a => k a
  | Raise e => Raise e
  | OutOfFuel => OutOfFuel
  end.

Global Instance outcome_fmap : FMap outcome := λ A B f m,
  match m with
  | Ok a => Ok (f a)
  | Raise e => Raise e
  | OutOfFuel => OutOfFuel
  end.

(** The call comes back to its caller, with a value or with an exception. *)
Definition comes_back {A : Type} (m : outcome A) : Prop := m ≠ OutOfFuel.

(** ** Data model: the annotated document *)

(** Coarse parts of speech (the universal tag set of the pipeline); the
    source imports [NOUN] and [VERB] from it. *)
Inductive upos : Type :=
  | NO_TAG | ADJ | ADP | ADV | AUX | CONJ | DET | INTJ | NOUN | NUM
  | PART | PRON | PROPN | PUNCT | SCONJ | SYM | VERB | X | EOL | SPACE.

Global Instance upos_eq_dec : EqDecision upos.
Proof. solve_decision. Defined.

Module Token.
(** One annotated token.  The pipeline interns strings, so an attribute
    and its identifier determine each other; attributes are kept as the
    strings themselves.  [head] is the document index of the syntactic
    head; a sentence root is its own head. *)
Record t : Type := mk {
  text : string;          (* surface form *)
  whitespace_ : string;   (* trailing whitespace, possibly empty *)
  idx : nat;              (* character offset of the token in the text *)
  lemma : string;         (* base form *)
  pos : upos;             (* coarse part of speech *)
  tag_ : string;          (* fine-grained tag *)
  dep_ : string;          (* dependency label *)
  head : nat;             (* index of the head token *)
  ent_type_ : string      (* entity label *)
}.

(** What a cleared slot of the token array holds. *)
Definition blank : t := mk "" "" 0 "" NO_TAG "" "" 0 "".
End Token.

Module Doc.
Record t : Type := mk {
  tokens : list Token.t;
  is_tagged : bool;
  is_parsed : bool
}.
End Doc.

Module Span.
(** A span is a view: it stores token positions and reads the document
    whenever it is asked for something. *)
Record t : Type := mk {
  start : nat;
  end_ : nat;            (* exclusive *)
  label_ : string
}.
End Span.

(** What a caller may hand to a function that dispatches on the type of
    its argument: a token handle, a span, or an object of another type. *)
Inductive py_value : Type :=
  | PyToken (i : nat)
  | PySpan (span : Span.t)
  | PyOther (type_name : string).

(** [len(doc)] *)
Definition doc_len (d : Doc.t) : nat := length (Doc.tokens d).

(** The attributes of the token behind the handle [(d, i)].  Handles are
    made by the document, so [i < doc_len d] for every handle the source
    ever sees; outside that range the model reads a blank token. *)
Definition tok (d : Doc.t) (i : nat) : Token.t :=
  default Token.blank (Doc.tokens d !! i).

(** Modelled from the spec: [token.lefts], [token.rights] and
    [token.children], which the pipeline provides: the tokens whose head
    is [i], those before [i] and those after [i], each in document
    order; the children are the left ones followed by the right ones. *)
Definition lefts (d : Doc.t) (i : nat) : list nat :=
  filter (λ j, Token.head (tok d j) = i) (seq 0 (i `min` doc_len d)).

Definition rights (d : Doc.t) (i : nat) : list nat :=
  filter (λ j, Token.head (tok d j) = i) (seq (S i) (doc_len d - S i)).

Definition children (d : Doc.t) (i : nat) : list nat :=
  lefts d i ++ rights d i.

(** ** Python built-ins used by the source *)

(** [itertools.takewhile] *)
Fixpoint takewhile {A : Type} (p : A → bool) (l : list A) : list A :=
  match l with
  | [] => []
  | x :: l' => if p x then x :: takewhile p l' else []
  end.

(** [any(...)] over a list *)
Definition any {A : Type} (p : A → bool) (l : list A) : bool := existsb p l.

(** ** The pipeline's side of spans and of merging *)

(** [doc[z]]: negative positions count from the end; a position outside
    the document raises. *)
Definition doc_getitem (d : Doc.t) (z : Z) : outcome nat :=
  let z' := (if decide (z < 0)%Z then z + Z.of_nat (doc_len d) else z)%Z in
  if decide (0 ≤ z' < Z.of_nat (doc_len d))%Z then Ok (Z.to_nat z')
  else Raise (IndexError "token index out of range").

(** Modelled from the spec: [span.text], which the pipeline provides: the
    surface forms of the covered tokens with the whitespace between them,
    without the whitespace after the last one. *)
Fixpoint join_text (tks : list Token.t) : string :=
  match tks with
  | [] => ""
  | [tk] => Token.text tk
  | tk :: rest => Token.text tk +:+ Token.whitespace_ tk +:+ join_text rest
  end.

Definition span_tokens (d : Doc.t) (sp : Span.t) : list nat :=
  seq (Span.start sp) (Span.end_ sp - Span.start sp).

Definition span_text (d : Doc.t) (sp : Span.t) : string :=
  join_text (tok d <$> span_tokens d sp).

(** [len(token)]: the number of characters of the surface form. *)
Definition token_len (tk : Token.t) : nat := String.length (Token.text tk).

(** Positions of the tokens that start, respectively end, at a given
    character offset. *)
Definition token_by_start (d : Doc.t) (c : nat) : option nat :=
  fst <$> list_find (λ tk, Token.idx tk = c) (Doc.tokens d).

Definition token_by_end (d : Doc.t) (c : nat) : option nat :=
  fst <$> list_find (λ tk, Token.idx tk + token_len tk = c) (Doc.tokens d).

(** Where a head at position [h] lands once the tokens [s .. e-1] have
    become the single token [s]. *)
Definition shifted (s e h : nat) : nat :=
  if decide (h < s) then h
  else if decide (h < e) then s
  else h - (e - s - 1).

(** *** The span object

    A span object holds the slice it stands for and the character
    offsets at which that slice started and ended when the object was
    made.  The slice is only a cache: whenever the object is asked for
    something it first checks the cached positions against the document
    as it is now, and finds them again from the character offsets when
    they no longer fit. *)

Module SpanObj.
Record t : Type := mk {
  slice : Span.t;
  start_char : nat;
  end_char : nat
}.
End SpanObj.

(** Modelled from the spec: [doc[start:end]] with a label, the span
    object as the pipeline makes it on the document [d], for
    [start <= end <= len(doc)]. *)
Definition span_of (d : Doc.t) (sl : Span.t) : SpanObj.t :=
  SpanObj.mk sl
    (if decide (Span.start sl < doc_len d)
     then Token.idx (tok d (Span.start sl)) else 0)
    (match Span.end_ sl with
     | 0 => 0
     | S e' => Token.idx (tok d e') + token_len (tok d e')
     end).

(** Modelled from the spec: the check every accessor of a span object
    starts with.  The cached slice stands when it ends inside the
    document, its first token starts at the remembered start offset and
    its last token ends at the remembered end offset; otherwise the
    slice runs from the token that starts at the start offset to the
    token that ends at the end offset.  An offset that is no token
    boundary any more raises. *)
Definition resolve (d : Doc.t) (sp : SpanObj.t) : outcome Span.t :=
  let sl := SpanObj.slice sp in
  let last_tk :=
    match Span.end_ sl with
    | 0 => Token.blank
    | S e' => tok d e'
    end in
  if bool_decide (doc_len d < Span.end_ sl
                  ∨ Token.idx (tok d (Span.start sl)) ≠ SpanObj.start_char sp
                  ∨ Token.idx last_tk + token_len last_tk ≠ SpanObj.end_char sp)
  then
    match token_by_start d (SpanObj.start_char sp) with
    | None => Raise (IndexError "Error calculating span: Can't find start")
    | Some s =>
        match token_by_end d (SpanObj.end_char sp) with
        | None => Raise (IndexError "Error calculating span: Can't find end")
        | Some e0 => Ok (Span.mk s (S e0) (Span.label_ sl))
        end
    end
  else Ok sl.

(** Modelled from the spec: [span[i]].  Position [i] counts from the
    start of the slice, or from its end when negative, and must fall
    inside the slice. *)
Definition span_getitem (d : Doc.t) (sp : SpanObj.t) (i : Z) : outcome nat :=
  sl ← resolve d sp;
  let token_i :=
    (if decide (i < 0)%Z then Z.of_nat (Span.end_ sl) + i
     else Z.of_nat (Span.start sl) + i)%Z in
  if decide (Z.of_nat (Span.start sl) ≤ token_i < Z.of_nat (Span.end_ sl))%Z
  then doc_getitem d token_i
  else Raise (IndexError "Span index out of range.").

(** Python's [str.isspace] on plain ASCII text. *)
Definition space_char (c : ascii) : bool :=
  let n := nat_of_ascii c in
  ((9 <=? n) && (n <=? 13)) || ((28 <=? n) && (n <=? 32)).

Fixpoint all_space (s : string) : bool :=
  match s with
  | EmptyString => true
  | String c s' => space_char c && all_space s'
  end.

Definition is_space (s : string) : bool :=
  match s with
  | EmptyString => false
  | _ => all_space s
  end.

(** The number of head links from token [i] up to the root of its
    sentence; a walk that has made as many steps as the document has
    tokens is cut short with an error. *)
Fixpoint words_to_root (fuel : nat) (d : Doc.t) (i : nat) : outcome nat :=
  match fuel with
  | 0 => Raise (RuntimeError "Array bounds exceeded while searching for root word.")
  | S fuel' =>
      if decide (Token.head (tok d i) = i) then Ok 0
      else S <$> words_to_root fuel' d (Token.head (tok d i))
  end.

(** Whitespace tokens are made the worst candidates. *)
Definition _count_words_to_root (d : Doc.t) (i : nat) : outcome nat :=
  if is_space (Token.text (tok d i)) then Ok (doc_len d - 1)
  else words_to_root (doc_len d) d i.

(** Among the tokens of [l] whose head lies outside [lo .. hi-1], the
    first one with the fewest links to the root, if it has fewer than
    [best]. *)
Fixpoint nearest_to_root (d : Doc.t) (lo hi : nat) (l : list nat)
    (best : nat) (root : option nat) : outcome (option nat) :=
  match l with
  | [] => Ok root
  | i :: l' =>
      if bool_decide (lo ≤ Token.head (tok d i) < hi)
      then nearest_to_root d lo hi l' best root
      else
        words ← _count_words_to_root d i;
        if decide (words < best)
        then nearest_to_root d lo hi l' words (Some i)
        else nearest_to_root d lo hi l' best root
  end.

(** Modelled from the spec: [span.root], which the pipeline provides.
    A token of the slice that is the root of its sentence is the root of
    the span; otherwise the root is, among the tokens whose head is not
    in the slice, the first of those nearest to the root of the
    sentence; the first token of the slice when there is no such
    token. *)
Definition span_root (d : Doc.t) (sp : SpanObj.t) : outcome nat :=
  sl ← resolve d sp;
  match list_find (λ i, Token.head (tok d i) = i) (span_tokens d sl) with
  | Some (_, i) => doc_getitem d (Z.of_nat i)
  | None =>
      root ← nearest_to_root d (Span.start sl) (Span.end_ sl)
                             (span_tokens d sl) (doc_len d) None;
      doc_getitem d (Z.of_nat (default (Span.start sl) root))
  end.

(** Modelled from the spec: [span.text] of a span object: the text of
    the slice in force, which has to have a last token. *)
Definition span_obj_text (d : Doc.t) (sp : SpanObj.t) : outcome string :=
  sl ← resolve d sp;
  _ ← span_getitem d sp (-1);
  Ok (span_text d sl).

(** Modelled from the spec: the document's merge entry point
    [doc.merge(start_idx, end_idx, tag, lemma, ent_type)], which the
    pipeline provides.  The two offsets are character offsets.  The run
    of tokens from the one starting at [start_idx] to the one ending at
    [end_idx] is replaced in place by one token carrying the given tag,
    base form and entity label; it keeps the dependency and the head of
    the run's root; tokens after the run move down by the run's length
    minus one and heads are redirected accordingly.  When no token starts
    at [start_idx] or none ends at [end_idx] the document is left as it
    is. *)
Definition doc_merge (d : Doc.t) (start_idx end_idx : nat)
    (tag lemma ent_type : string) : outcome Doc.t :=
  match token_by_start d start_idx, token_by_end d end_idx with
  | Some s, Some e0 =>
      let e := S e0 in
      if decide (s < e) then
        let sl := Span.mk s e "" in
        root ← span_root d (span_of d sl);
        let r := tok d root in
        let move tk :=
          Token.mk (Token.text tk) (Token.whitespace_ tk) (Token.idx tk)
                   (Token.lemma tk) (Token.pos tk) (Token.tag_ tk)
                   (Token.dep_ tk) (shifted s e (Token.head tk))
                   (Token.ent_type_ tk) in
        let merged :=
          Token.mk (span_text d sl) (Token.whitespace_ (tok d e0))
                   (Token.idx (tok d s)) lemma (Token.pos (tok d s)) tag
                   (Token.dep_ r) (shifted s e (Token.head r)) ent_type in
        Ok (Doc.mk ((move <$> take s (Doc.tokens d)) ++ merged
                      :: (move <$> drop e (Doc.tokens d)))
                   (Doc.is_tagged d) (Doc.is_parsed d))
      else Ok d
  | _, _ => Ok d
  end.

(** ** Span merging *)

(** [(start, end, tag, text, label)] *)
Definition span_tuple : Type := nat * nat * string * string * string.

Definition _span_to_tuple (d : Doc.t) (span : SpanObj.t) : outcome span_tuple :=
  first ← span_getitem d span 0;
  let start := Token.idx (tok d first) in
  last ← span_getitem d span (-1);
  let end_ := Token.idx (tok d last) + token_len (tok d last) in
  root ← span_root d span;
  let tag := Token.tag_ (tok d root) in
  text ← span_obj_text d span;
  let label := Span.label_ (SpanObj.slice span) in
  Ok (start, end_, tag, text, label).

(** [doc.merge( *span_tuple )] *)
Definition merge_tuple (d : Doc.t) (t : span_tuple) : outcome Doc.t :=
  let '(start, end_, tag, text, label) := t in
  doc_merge d start end_ tag text label.

(** [merge_spans(spans, doc)].  The loop draws its tuples from a generator
    expression, and a generator computes an item only when the loop asks
    for it: the tuple of a span is computed at the top of that span's
    iteration, on the document as the earlier iterations have left it.
    The function mutates [doc] and returns nothing; the model returns the
    final document together with the tuples passed to [doc.merge], in call
    order. *)
Fixpoint merge_spans (spans : list SpanObj.t) (doc : Doc.t)
  : outcome (list span_tuple * Doc.t) :=
  match spans with
  | [] => Ok ([], doc)
  | span :: rest =>
      span_tuple ← _span_to_tuple doc span;
      doc1 ← merge_tuple doc span_tuple;
      '(calls, doc') ← merge_spans rest doc1;
      Ok (span_tuple :: calls, doc')
  end.

(** The two-phase reading of the docstring ("gather the information
    first, before merging"): every tuple is computed on the document as
    given, and only then are the merges applied. *)
Fixpoint gather (spans : list SpanObj.t) (doc : Doc.t)
  : outcome (list span_tuple) :=
  match spans with
  | [] => Ok []
  | span :: rest =>
      t ← _span_to_tuple doc span;
      ts ← gather rest doc;
      Ok (t :: ts)
  end.

Fixpoint merge_all (doc : Doc.t) (ts : list span_tuple) : outcome Doc.t :=
  match ts with
  | [] => Ok doc
  | t :: ts' => doc1 ← merge_tuple doc t; merge_all doc1 ts'
  end.

Definition merge_spans_gather_first (spans : list SpanObj.t) (doc : Doc.t)
  : outcome (list span_tuple * Doc.t) :=
  ts ← gather spans doc;
  doc' ← merge_all doc ts;
  Ok (ts, doc').

Section SpacyUtils.

(** Capabilities and configuration supplied from outside the module:
    the lower-casing of the pipeline's lexicon, the acronym test and
    the three label sets imported from the configuration module. *)
Variable str_lower : string → string.
Variable is_acronym : string → bool.
Variables SUBJ_DEPS OBJ_DEPS AUX_DEPS : gset string.

(** [token.lower]: the lower-cased surface form. *)
Definition lower (tk : Token.t) : string := str_lower (Token.text tk).

(** *** Token-level classifiers *)

Definition is_plural_noun (d : Doc.t) (i : nat) : outcome bool :=
  if negb (Doc.is_tagged d) then Raise (ValueError "token is not POS-tagged")
  else
    let token := tok d i in
    Ok (if bool_decide (Token.pos token = NOUN)
           && negb (bool_decide (Token.lemma token = lower token))
        then true else false).

Definition is_negated_verb (d : Doc.t) (i : nat) : outcome bool :=
  if negb (Doc.is_parsed d) then Raise (ValueError "token is not parsed")
  else
    let token := tok d i in
    if bool_decide (Token.pos token = VERB)
       && any (λ c, bool_decide (Token.dep_ (tok d c) = "neg")) (children d i)
    then Ok true
    else Ok false.

Definition preserve_case (d : Doc.t) (i : nat) : outcome bool :=
  if negb (Doc.is_tagged d) then Raise (ValueError "token is not POS-tagged")
  else
    let token := tok d i in
    Ok (bool_decide (Token.tag_ token ∈ ({[ "NNP"; "NNPS" ]} : gset string))
        || is_acronym (Token.text token)).

(** *** Text normalisation *)

Definition normalized_token (d : Doc.t) (i : nat) : outcome string :=
  keep ← preserve_case d i;
  Ok (if keep : bool then Token.text (tok d i) else Token.lemma (tok d i)).

(** The pieces of a span, one token after the other; the first token
    that fails stops the iteration. *)
Fixpoint normalized_pieces (d : Doc.t) (l : list nat) : outcome (list string) :=
  match l with
  | [] => Ok []
  | i :: l' =>
      subtok ← doc_getitem d (Z.of_nat i);
      piece ← normalized_token d subtok;
      pieces ← normalized_pieces d l';
      Ok (piece :: pieces)
  end.

(** [' '.join(...)] *)
Fixpoint join_blank (pieces : list string) : string :=
  match pieces with
  | [] => ""
  | [piece] => piece
  | piece :: rest => piece +:+ " " +:+ join_blank rest
  end.

Definition normalized_str (d : Doc.t) (token : py_value) : outcome string :=
  match token with
  | PyToken i => normalized_token d i
  | PySpan span =>
      pieces ← normalized_pieces d (span_tokens d span);
      Ok (join_blank pieces)
  | PyOther type_name =>
      Raise (TypeError ("Input must be a spacy Token or Span, not "
                        +:+ type_name +:+ "."))
  end.

(** *** Dependency extraction *)

Definition get_main_verbs_of_sent (d : Doc.t) (sent : list nat) : list nat :=
  filter (λ i, Token.pos (tok d i) = VERB
               ∧ Token.dep_ (tok d i) ∉ ({[ "aux"; "auxpass" ]} : gset string))
         sent.

Definition _get_conjuncts (d : Doc.t) (i : nat) : list nat :=
  filter (λ r, Token.dep_ (tok d r) = "conj") (rights d i).

(** [l.extend(tok for x in l for tok in _get_conjuncts(x))].

    The argument of [extend] is a generator, so [extend] pulls one item
    at a time and appends it to [l] at once; the generator's outer loop
    walks that same list [l] by position and tests the position against
    the current length before every step.  Items appended while the
    loop runs are therefore visited later by the same loop.  [k] is the
    position of the outer loop; the conjuncts of [l[k]] make a fresh
    list, so appending them in one go is what the item-wise appends
    amount to.  Each visited position costs one unit of fuel, and so
    does the final test that finds the list exhausted. *)
Fixpoint extend_with_conjuncts (fuel : nat) (d : Doc.t) (l : list nat) (k : nat)
  : outcome (list nat) :=
  match fuel with
  | 0 => OutOfFuel
  | S fuel' =>
      match l !! k with
      | None => Ok l
      | Some x => extend_with_conjuncts fuel' d (l ++ _get_conjuncts d x) (S k)
      end
  end.

Definition get_subjects_of_verb (fuel : nat) (d : Doc.t) (verb : nat)
  : outcome (list nat) :=
  let subjs := filter (λ t, Token.dep_ (tok d t) ∈ SUBJ_DEPS) (lefts d verb) in
  extend_with_conjuncts fuel d subjs 0.

Definition get_objects_of_verb (fuel : nat) (d : Doc.t) (verb : nat)
  : outcome (list nat) :=
  let objs := filter (λ t, Token.dep_ (tok d t) ∈ OBJ_DEPS) (rights d verb) in
  let objs := objs ++ filter (λ t, Token.dep_ (tok d t) = "xcomp") (rights d verb) in
  extend_with_conjuncts fuel d objs 0.

(** *** Span boundaries

    [sum(1 for _ in it)] counts the items of [it]: the length of the
    list that [takewhile] lets through. *)

Definition get_span_for_compound_noun (d : Doc.t) (noun : nat) : outcome (Z * Z) :=
  let min_i :=
    (Z.of_nat noun
     - Z.of_nat (length (takewhile
                           (λ x, bool_decide (Token.dep_ (tok d x) = "compound"))
                           (reverse (lefts d noun)))))%Z in
  Ok (min_i, Z.of_nat noun).

Definition get_span_for_verb_auxiliaries (d : Doc.t) (verb : nat) : outcome (Z * Z) :=
  let min_i :=
    (Z.of_nat verb
     - Z.of_nat (length (takewhile
                           (λ x, bool_decide (Token.dep_ (tok d x) ∈ AUX_DEPS))
                           (reverse (lefts d verb)))))%Z in
  let max_i :=
    (Z.of_nat verb
     + Z.of_nat (length (takewhile
                           (λ x, bool_decide (Token.dep_ (tok d x) ∈ AUX_DEPS))
                           (rights d verb))))%Z in
  Ok (min_i, max_i).

End SpacyUtils.

(** ** Specification-level notions *)

(** The tokens reachable from a seed list through conjunct links: the
    least set that holds the seeds and, with a token, its conjuncts. *)
Inductive conj_reach (d : Doc.t) (seeds : list nat) : nat → Prop :=
  | reach_seed s : s ∈ seeds → conj_reach d seeds s
  | reach_conj x c :
      conj_reach d seeds x → c ∈ _get_conjuncts d x → conj_reach d seeds c.

(** The conjuncts of a whole list of tokens, in order. *)
Definition conjuncts_of (d : Doc.t) (l : list nat) : list nat :=
  l ≫= _get_conjuncts d.

(** The [k]-th generation below [front], and the first [n] generations
    laid end to end. *)
Fixpoint generation (k : nat) (d : Doc.t) (front : list nat) : list nat :=
  match k with
  | 0 => front
  | S k' => generation k' d (conjuncts_of d front)
  end.

Fixpoint levels (n : nat) (d : Doc.t) (front : list nat) : list nat :=
  match n with
  | 0 => []
  | S n' => front ++ levels n' d (conjuncts_of d front)
  end.

(** Every generation that can be non-empty, laid end to end: a conjunct
    sits to the right of the token it hangs off, so generation [k + 1]
    only holds positions from [k + 1] up to the end of the document. *)
Definition closure (d : Doc.t) (seeds : list nat) : list nat :=
  levels (S (doc_len d)) d seeds.

(** [n] is the number of elements at the front of [l] that satisfy [p]
    one after the other: the count stops at the first element that fails
    [p], or when [l] is exhausted. *)
Definition leading_run {A : Type} (p : A → bool) (l : list A) (n : nat) : Prop :=
  n ≤ length l
  ∧ (∀ k x, k < n → l !! k = Some x → p x = true)
  ∧ (∀ x, l !! n = Some x → p x = false).

(** The same count taken from the back of [l]: position [length l - 1]
    is visited first, then [length l - 2], and so on. *)
Definition trailing_run {A : Type} (p : A → bool) (l : list A) (n : nat) : Prop :=
  n ≤ length l
  ∧ (∀ k x, k < n → l !! (length l - 1 - k) = Some x → p x = true)
  ∧ (∀ x, n < length l → l !! (length l - 1 - n) = Some x → p x = false).

(** A document with one more token at its end; the tokens already there
    keep their positions. *)
Definition add_token (d : Doc.t) (tk : Token.t) : Doc.t :=
  Doc.mk (Doc.tokens d ++ [tk]) (Doc.is_tagged d) (Doc.is_parsed d).

(** The same tokens under another setting of the [is_parsed] flag. *)
Definition with_is_parsed (b : bool) (d : Doc.t) : Doc.t :=
  Doc.mk (Doc.tokens d) (Doc.is_tagged d) b.

(** ** Concrete configuration and documents *)

Module Ex.

(** Lower-casing of plain ASCII text. *)
Definition lower_char (c : ascii) : ascii :=
  let n := nat_of_ascii c in
  if (65 <=? n) && (n <=? 90) then ascii_of_nat (n + 32) else c.

Fixpoint ascii_lower (s : string) : string :=
  match s with
  | EmptyString => EmptyString
  | String c s' => String (lower_char c) (ascii_lower s')
  end.

Definition SUBJ_DEPS : gset string :=
  {[ "agent"; "csubj"; "csubjpass"; "expl"; "nsubj"; "nsubjpass" ]}.
Definition OBJ_DEPS : gset string := {[ "attr"; "dobj"; "dative"; "oprd" ]}.
Definition AUX_DEPS : gset string := {[ "aux"; "auxpass"; "neg" ]}.

(** A configuration that also lists open clausal complements as objects. *)
Definition OBJ_DEPS_xcomp : gset string := {[ "dobj"; "xcomp" ]}.

(** Tokens separated by single blanks, from (text, lemma, pos, tag,
    dep, head) entries; [off] is the character offset of the first. *)
Fixpoint layout (off : nat)
    (ws : list (string * string * upos * string * string * nat)) : list Token.t :=
  match ws with
  | [] => []
  | (text, lem, p, tag, dep, h) :: rest =>
      Token.mk text " " off lem p tag dep h ""
        :: layout (off + String.length text + 1) rest
  end.

Definition parsed ws : Doc.t := Doc.mk (layout 0 ws) true true.

(** "Ann , Bob , and Carl left": Bob hangs off Ann, Carl off Bob. *)
Definition ann_bob_carl : Doc.t := parsed [
  ("Ann", "ann", PROPN, "NNP", "nsubj", 6);
  (",", ",", PUNCT, ",", "punct", 0);
  ("Bob", "bob", PROPN, "NNP", "conj", 0);
  (",", ",", PUNCT, ",", "punct", 2);
  ("and", "and", CONJ, "CC", "cc", 2);
  ("Carl", "carl", PROPN, "NNP", "conj", 2);
  ("left", "leave", VERB, "VBD", "ROOT", 6)].

(** "had not been running" *)
Definition had_not_been_running : Doc.t := parsed [
  ("had", "have", VERB, "VBD", "aux", 3);
  ("not", "not", ADV, "RB", "neg", 3);
  ("been", "be", VERB, "VBN", "aux", 3);
  ("running", "run", VERB, "VBG", "ROOT", 3)].

(** "had probably not been running": an adverb between two auxiliaries *)
Definition had_probably_not_been_running : Doc.t := parsed [
  ("had", "have", VERB, "VBD", "aux", 4);
  ("probably", "probably", ADV, "RB", "advmod", 4);
  ("not", "not", ADV, "RB", "neg", 4);
  ("been", "be", VERB, "VBN", "aux", 4);
  ("running", "run", VERB, "VBG", "ROOT", 4)].

(** "the ice cream shops" *)
Definition ice_cream_shops : Doc.t := parsed [
  ("the", "the", DET, "DT", "det", 3);
  ("ice", "ice", NOUN, "NN", "compound", 3);
  ("cream", "cream", NOUN, "NN", "compound", 3);
  ("shops", "shop", NOUN, "NNS", "ROOT", 3)].

(** "She wants to leave and rest": an open clausal complement with a
    conjunct of its own *)
Definition she_wants_to_leave : Doc.t := parsed [
  ("She", "she", PRON, "PRP", "nsubj", 1);
  ("wants", "want", VERB, "VBZ", "ROOT", 1);
  ("to", "to", PART, "TO", "aux", 3);
  ("leave", "leave", VERB, "VB", "xcomp", 1);
  ("and", "and", CONJ, "CC", "cc", 3);
  ("rest", "rest", VERB, "VB", "conj", 3)].

(** "She did sleep", and a negation to attach to "sleep" *)
Definition she_did_sleep : Doc.t := parsed [
  ("She", "she", PRON, "PRP", "nsubj", 2);
  ("did", "do", VERB, "VBD", "aux", 2);
  ("sleep", "sleep", VERB, "VB", "ROOT", 2)].

Definition never : Token.t :=
  Token.mk "never" "" 14 "never" ADV "RB" "neg" 2 "".

(** "Ann left" straight from the tokenizer: no tags, no parse; every
    token is its own head and has the empty dependency label. *)
Definition unparsed : Doc.t := Doc.mk [
  Token.mk "Ann" " " 0 "" NO_TAG "" "" 0 "";
  Token.mk "left" "" 4 "" NO_TAG "" "" 1 "" ] false false.

(** Ten tokens with the spans [2,4) and [6,8) to merge. *)
Definition we_left_new_york : Doc.t := parsed [
  ("We", "we", PRON, "PRP", "nsubj", 1);
  ("left", "leave", VERB, "VBD", "ROOT", 1);
  ("New", "new", PROPN, "NNP", "compound", 3);
  ("York", "york", PROPN, "NNP", "dobj", 1);
  ("and", "and", CONJ, "CC", "cc", 1);
  ("saw", "see", VERB, "VBD", "conj", 1);
  ("San", "san", PROPN, "NNP", "compound", 7);
  ("Francisco", "francisco", PROPN, "NNP", "dobj", 5);
  ("last", "last", ADJ, "JJ", "amod", 9);
  ("year", "year", NOUN, "NN", "npadvmod", 5)].

Definition new_york : Span.t := Span.mk 2 4 "GPE".
Definition san_francisco : Span.t := Span.mk 6 8 "GPE".

(** Six tokens under the root "r": the chain "d" -> "b" -> "a" -> "r"
    and the chain "e" -> "x" -> "r".  The slice [0,2) holds "a b"; the
    slice [2,4) holds "d e", one token of each chain. *)
Definition two_chains : Doc.t := parsed [
  ("a", "a", NOUN, "TA", "nsubj", 5);
  ("b", "b", NOUN, "TB", "nmod", 0);
  ("d", "d", NOUN, "TD", "nmod", 1);
  ("e", "e", NOUN, "TE", "nmod", 4);
  ("x", "x", NOUN, "TX", "dobj", 5);
  ("r", "r", VERB, "TR", "ROOT", 5)].

Definition a_b : Span.t := Span.mk 0 2 "AB".
Definition d_e : Span.t := Span.mk 2 4 "DE".

End Ex.

(** * Properties *)

(** ** Children of a token *)

Lemma elem_of_lefts d i j :
  j ∈ lefts d i ↔ j < i ∧ j < doc_len d ∧ Token.head (tok d j) = i.
Proof.
  unfold lefts. rewrite list_elem_of_filter, elem_of_seq. lia.
Qed.

Lemma elem_of_rights d i j :
  j ∈ rights d i ↔ i < j ∧ j < doc_len d ∧ Token.head (tok d j) = i.
Proof.
  unfold rights. rewrite list_elem_of_filter, elem_of_seq. lia.
Qed.

Lemma elem_of_children d i c :
  c ∈ children d i ↔ c < doc_len d ∧ c ≠ i ∧ Token.head (tok d c) = i.
Proof.
  unfold children. rewrite elem_of_app, elem_of_lefts, elem_of_rights. lia.
Qed.

Lemma length_lefts_le d i : length (lefts d i) ≤ i.
Proof.
  unfold lefts. etransitivity; [apply length_filter|]. rewrite length_seq. lia.
Qed.

Lemma length_rights_le d i : length (rights d i) ≤ doc_len d - S i.
Proof.
  unfold rights. etransitivity; [apply length_filter|]. by rewrite length_seq.
Qed.

Lemma NoDup_lefts d i : NoDup (lefts d i).
Proof. apply NoDup_filter, NoDup_seq. Qed.

Lemma NoDup_rights d i : NoDup (rights d i).
Proof. apply NoDup_filter, NoDup_seq. Qed.

Lemma elem_of_get_conjuncts d x c :
  c ∈ _get_conjuncts d x ↔
  x < c ∧ c < doc_len d ∧ Token.head (tok d c) = x ∧ Token.dep_ (tok d c) = "conj".
Proof.
  unfold _get_conjuncts. rewrite list_elem_of_filter, elem_of_rights. tauto.
Qed.

Lemma NoDup_get_conjuncts d x : NoDup (_get_conjuncts d x).
Proof. apply NoDup_filter, NoDup_rights. Qed.

(** Existing handles read the same token after [add_token]. *)
Lemma tok_add_token_old d tk j : j < doc_len d → tok (add_token d tk) j = tok d j.
Proof.
  intros Hj. unfold tok, add_token; simpl. by rewrite lookup_app_l.
Qed.

Lemma tok_add_token_new d tk : tok (add_token d tk) (doc_len d) = tk.
Proof.
  unfold tok, add_token, doc_len; simpl.
  by rewrite lookup_app_r, Nat.sub_diag.
Qed.

Lemma doc_len_add_token d tk : doc_len (add_token d tk) = S (doc_len d).
Proof. unfold doc_len, add_token; simpl. rewrite length_app; simpl. lia. Qed.

(** ** [takewhile] *)

Lemma length_takewhile_le {A} (p : A → bool) l : length (takewhile p l) ≤ length l.
Proof. induction l as [|x l IH]; simpl; [lia|]. destruct (p x); simpl; lia. Qed.

Lemma takewhile_leading_run {A} (p : A → bool) l :
  leading_run p l (length (takewhile p l)).
Proof.
  split; [apply length_takewhile_le|].
  induction l as [|x l [IH1 IH2]]; simpl.
  - split; [lia|]. intros x Hx; inversion Hx.
  - destruct (p x) eqn:Hx; simpl.
    + split.
      * intros [|k] y Hk; simpl; [congruence|]. apply IH1. lia.
      * intros y. apply IH2.
    + split; [lia|]. simpl. congruence.
Qed.

Lemma leading_run_unique {A} (p : A → bool) l n m :
  leading_run p l n → leading_run p l m → n = m.
Proof.
  intros (Hn & Hn1 & Hn2) (Hm & Hm1 & Hm2).
  destruct (Nat.lt_total n m) as [Hlt|[->|Hlt]]; [|done|].
  - destruct (lookup_lt_is_Some_2 l n) as [x Hx]; [lia|].
    pose proof (Hn2 x Hx). pose proof (Hm1 n x Hlt Hx). congruence.
  - destruct (lookup_lt_is_Some_2 l m) as [x Hx]; [lia|].
    pose proof (Hm2 x Hx). pose proof (Hn1 m x Hlt Hx). congruence.
Qed.

Lemma leading_run_reverse {A} (p : A → bool) l n :
  leading_run p (reverse l) n → trailing_run p l n.
Proof.
  intros (Hn & H1 & H2). rewrite length_reverse in Hn.
  split; [done|]. split.
  - intros k x Hk Hx. apply (H1 k x Hk).
    rewrite reverse_lookup by lia. rewrite <- Hx. f_equal. lia.
  - intros x Hlt Hx. apply H2.
    rewrite reverse_lookup by lia. rewrite <- Hx. f_equal. lia.
Qed.

Lemma takewhile_trailing_run {A} (p : A → bool) l :
  trailing_run p l (length (takewhile p (reverse l))).
Proof. apply leading_run_reverse, takewhile_leading_run. Qed.

(** A run taken from the back ends at the nearest element that fails the
    test. *)
Lemma trailing_run_cut {A} (p : A → bool) pre x run n :
  trailing_run p (pre ++ x :: run) n →
  p x = false → (∀ y, y ∈ run → p y = true) → n = length run.
Proof.
  intros (Hn & H1 & H2) Hx Hrun.
  rewrite length_app in *; simpl in *.
  destruct (Nat.lt_total n (length run)) as [Hlt|[->|Hlt]]; [|done|].
  - exfalso.
    assert (is_Some (run !! (length run - 1 - n))) as [y Hy]
      by (apply lookup_lt_is_Some_2; lia).
    assert (p y = false) as Hf.
    { apply H2; [lia|].
      rewrite lookup_app_r by lia.
      replace (length pre + S (length run) - 1 - n - length pre)
        with (S (length run - 1 - n)) by lia.
      done. }
    rewrite Hrun in Hf; [done|]. by eapply list_elem_of_lookup_2.
  - exfalso.
    assert (p x = true) as Ht; [|congruence].
    apply (H1 (length run)); [lia|].
    rewrite lookup_app_r by lia.
    replace (length pre + S (length run) - 1 - length run - length pre) with 0 by lia.
    done.
Qed.

(** ** Token-level classifiers *)

(** C7.  [is_plural_noun] raises when the token's document is not tagged;
    on a tagged document it returns a boolean that is true exactly when
    the coarse part of speech is NOUN and the lemma differs from the
    lower-cased surface text, so that it is false for every token that is
    not a NOUN, whatever its lemma and text. *)
Theorem is_plural_noun_correct (str_lower : string → string) d i :
  (Doc.is_tagged d = false →
     is_plural_noun str_lower d i = Raise (ValueError "token is not POS-tagged"))
  ∧ (Doc.is_tagged d = true →
     ∃ b, is_plural_noun str_lower d i = Ok b
          ∧ (b = true ↔ Token.pos (tok d i) = NOUN
                        ∧ Token.lemma (tok d i) ≠ str_lower (Token.text (tok d i)))
          ∧ (Token.pos (tok d i) ≠ NOUN → b = false)).
Proof.
  unfold is_plural_noun, lower. split; intros ->; simpl; [done|].
  eexists; split; [reflexivity|]. split.
  - destruct (bool_decide _ && _) eqn:E.
    + apply andb_true_iff in E as [E1 E2].
      apply bool_decide_eq_true in E1.
      apply negb_true_iff, bool_decide_eq_false in E2. tauto.
    + split; [done|]. intros [E1 E2]. apply andb_false_iff in E as [E|E].
      * apply bool_decide_eq_false in E. tauto.
      * apply negb_false_iff, bool_decide_eq_true in E. tauto.
  - intros Hpos. by rewrite bool_decide_eq_false_2.
Qed.

Lemma is_plural_noun_correct_witness :
  is_plural_noun Ex.ascii_lower Ex.unparsed 0
    = Raise (ValueError "token is not POS-tagged")
  ∧ ∃ b, is_plural_noun Ex.ascii_lower Ex.ice_cream_shops 3 = Ok b
         ∧ (b = true ↔
            Token.pos (tok Ex.ice_cream_shops 3) = NOUN
            ∧ Token.lemma (tok Ex.ice_cream_shops 3)
              ≠ Ex.ascii_lower (Token.text (tok Ex.ice_cream_shops 3)))
         ∧ (Token.pos (tok Ex.ice_cream_shops 3) ≠ NOUN → b = false).
Proof.
  split.
  - apply (is_plural_noun_correct Ex.ascii_lower Ex.unparsed 0). reflexivity.
  - apply (is_plural_noun_correct Ex.ascii_lower Ex.ice_cream_shops 3). reflexivity.
Defined.

Lemma any_true {A} (p : A → bool) l : any p l = true ↔ ∃ x, x ∈ l ∧ p x = true.
Proof.
  unfold any. rewrite existsb_exists.
  split; intros (x & Hx & Hp); exists x; split; try done;
    by apply list_elem_of_In.
Qed.

(** C8.  [is_negated_verb] raises when the token's document is not parsed;
    on a parsed document it returns a boolean that is true exactly when
    the coarse part of speech is VERB and some token whose head is this
    token is labelled "neg".  For a verb without such a child it returns
    false, and after one "neg"-labelled child has been attached to it, it
    returns true. *)
Theorem is_negated_verb_correct d i :
  (Doc.is_parsed d = false →
     is_negated_verb d i = Raise (ValueError "token is not parsed"))
  ∧ (Doc.is_parsed d = true →
     ∃ b, is_negated_verb d i = Ok b
          ∧ (b = true ↔
             Token.pos (tok d i) = VERB
             ∧ ∃ c, c < doc_len d ∧ c ≠ i ∧ Token.head (tok d c) = i
                    ∧ Token.dep_ (tok d c) = "neg"))
  ∧ (Doc.is_parsed d = true → i < doc_len d → Token.pos (tok d i) = VERB →
     (∀ c, c ∈ children d i → Token.dep_ (tok d c) ≠ "neg") →
     is_negated_verb d i = Ok false
     ∧ ∀ tk, Token.head tk = i → Token.dep_ tk = "neg" →
             is_negated_verb (add_token d tk) i = Ok true).
Proof.
  assert (∀ d i, Doc.is_parsed d = true →
     is_negated_verb d i = Ok true ↔
       Token.pos (tok d i) = VERB
       ∧ ∃ c, c ∈ children d i ∧ Token.dep_ (tok d c) = "neg") as Hiff.
  { clear. intros d i Hp. unfold is_negated_verb. rewrite Hp; simpl.
    destruct (bool_decide _ && _) eqn:E.
    - apply andb_true_iff in E as [E1 E2].
      apply bool_decide_eq_true in E1. apply any_true in E2 as (c & Hc & E2).
      apply bool_decide_eq_true in E2. split; [eauto|done].
    - split; [done|]. intros (E1 & c & Hc & E2). exfalso.
      apply andb_false_iff in E as [E|E].
      + by apply bool_decide_eq_false in E.
      + assert (any (λ c, bool_decide (Token.dep_ (tok d c) = "neg"))
                    (children d i) = true) as Ht; [|congruence].
        apply any_true. exists c. by rewrite bool_decide_eq_true. }
  assert (∀ d i, Doc.is_parsed d = true →
     is_negated_verb d i = Ok true ∨ is_negated_verb d i = Ok false) as Hcases.
  { clear. intros d i Hp. unfold is_negated_verb. rewrite Hp; simpl.
    destruct (_ && _); auto. }
  split; [|split].
  - intros Hp. unfold is_negated_verb. by rewrite Hp.
  - intros Hp. destruct (Hcases d i Hp) as [E|E].
    + exists true. split; [done|]. split; [intros _|done].
      apply Hiff in E as (Hv & c & Hc & Hneg); [|done].
      apply elem_of_children in Hc. split; [done|]. exists c. tauto.
    + exists false. split; [done|]. split; [done|].
      intros (Hv & c & Hc1 & Hc2 & Hc3 & Hneg). exfalso.
      assert (is_negated_verb d i = Ok true) as Ht; [|congruence].
      apply Hiff; [done|]. split; [done|]. exists c.
      by rewrite elem_of_children.
  - intros Hp Hi Hv Hnone. split.
    + destruct (Hcases d i Hp) as [E|E]; [|done].
      apply Hiff in E as (_ & c & Hc & Hneg); [|done].
      by destruct (Hnone c Hc).
    + intros tk Hh Hneg. apply Hiff; [done|]. split.
      * by rewrite tok_add_token_old.
      * exists (doc_len d).
        rewrite elem_of_children, doc_len_add_token, tok_add_token_new.
        repeat split; [lia|lia|done|done].
Qed.

Lemma is_negated_verb_correct_witness :
  is_negated_verb Ex.unparsed 1 = Raise (ValueError "token is not parsed")
  ∧ (∃ b, is_negated_verb Ex.had_not_been_running 3 = Ok b
          ∧ (b = true ↔
             Token.pos (tok Ex.had_not_been_running 3) = VERB
             ∧ ∃ c, c < doc_len Ex.had_not_been_running ∧ c ≠ 3
                    ∧ Token.head (tok Ex.had_not_been_running c) = 3
                    ∧ Token.dep_ (tok Ex.had_not_been_running c) = "neg"))
  ∧ is_negated_verb Ex.she_did_sleep 2 = Ok false
  ∧ is_negated_verb (add_token Ex.she_did_sleep Ex.never) 2 = Ok true.
Proof.
  split; [|split].
  - apply (is_negated_verb_correct Ex.unparsed 1). reflexivity.
  - apply (is_negated_verb_correct Ex.had_not_been_running 3). reflexivity.
  - assert (∀ c, c ∈ children Ex.she_did_sleep 2 →
                 Token.dep_ (tok Ex.she_did_sleep c) ≠ "neg") as Hnone.
    { intros c Hc. change (children Ex.she_did_sleep 2) with [0; 1] in Hc.
      apply elem_of_cons in Hc as [->|Hc]; [discriminate|].
      apply elem_of_cons in Hc as [->|Hc]; [discriminate|].
      by apply elem_of_nil in Hc. }
    destruct (is_negated_verb_correct Ex.she_did_sleep 2) as (_ & _ & H).
    destruct (H eq_refl ltac:(vm_compute; lia) eq_refl Hnone) as [H1 H2].
    split; [exact H1|]. apply H2; reflexivity.
Defined.

(** ** Span boundaries *)

Lemma StronglySorted_seq s n : StronglySorted lt (seq s n).
Proof.
  revert s. induction n as [|n IH]; intros s; simpl; constructor; [apply IH|].
  apply Forall_forall. intros x Hx%elem_of_seq. lia.
Qed.

Lemma StronglySorted_filter {A} (R : relation A) (P : A → Prop)
    `{!∀ x, Decision (P x)} l :
  StronglySorted R l → StronglySorted R (filter P l).
Proof.
  induction 1 as [|x l Hl IH Hx]; [constructor|].
  rewrite filter_cons. destruct (decide (P x)); [|done].
  constructor; [done|]. rewrite Forall_forall in *.
  intros y Hy%list_elem_of_filter. apply Hx, Hy.
Qed.

Lemma lefts_sorted d i : StronglySorted lt (lefts d i).
Proof. apply StronglySorted_filter, StronglySorted_seq. Qed.

Lemma rights_sorted d i : StronglySorted lt (rights d i).
Proof. apply StronglySorted_filter, StronglySorted_seq. Qed.

Lemma leading_run_cut {A} (p : A → bool) run x post n :
  leading_run p (run ++ x :: post) n →
  p x = false → (∀ y, y ∈ run → p y = true) → n = length run.
Proof.
  intros (Hn & H1 & H2) Hx Hrun.
  destruct (Nat.lt_total n (length run)) as [Hlt|[->|Hlt]]; [|done|]; exfalso.
  - destruct (lookup_lt_is_Some_2 run n Hlt) as [y Hy].
    assert (p y = false) as Hf by (apply H2; by rewrite lookup_app_l).
    rewrite Hrun in Hf; [done|]. by eapply list_elem_of_lookup_2.
  - assert (p x = true) as Ht; [|congruence].
    apply (H1 (length run)); [done|]. by rewrite list_lookup_middle.
Qed.

(** C5.  [get_span_for_verb_auxiliaries] returns [(verb - nl, verb + nr)]
    where [nl] counts the AUX_DEPS-labelled left children met one after
    the other when walking backward from the left child nearest the verb,
    and [nr] those met walking forward from the nearest right child.
    Either count stops at the first child whose label is not in AUX_DEPS
    or when the children run out; so when a child that is not an
    auxiliary stands between auxiliaries, only those on the verb's side
    of it are counted. *)
Theorem get_span_for_verb_auxiliaries_correct (AUX_DEPS : gset string) d verb :
  let is_aux x := bool_decide (Token.dep_ (tok d x) ∈ AUX_DEPS) in
  ∃ nl nr,
    get_span_for_verb_auxiliaries AUX_DEPS d verb
      = Ok (Z.of_nat verb - Z.of_nat nl, Z.of_nat verb + Z.of_nat nr)%Z
    ∧ trailing_run is_aux (lefts d verb) nl
    ∧ leading_run is_aux (rights d verb) nr
    ∧ (∀ pre x run,
         lefts d verb = pre ++ x :: run →
         Token.dep_ (tok d x) ∉ AUX_DEPS →
         (∀ y, y ∈ run → Token.dep_ (tok d y) ∈ AUX_DEPS) →
         nl = length run)
    ∧ (∀ run x post,
         rights d verb = run ++ x :: post →
         Token.dep_ (tok d x) ∉ AUX_DEPS →
         (∀ y, y ∈ run → Token.dep_ (tok d y) ∈ AUX_DEPS) →
         nr = length run).
Proof.
  intros is_aux.
  exists (length (takewhile is_aux (reverse (lefts d verb)))),
         (length (takewhile is_aux (rights d verb))).
  pose proof (takewhile_trailing_run is_aux (lefts d verb)) as Hl.
  pose proof (takewhile_leading_run is_aux (rights d verb)) as Hr.
  split; [reflexivity|]. split; [done|]. split; [done|]. split.
  - intros pre x run E Hx Hrun. rewrite E in Hl |- *.
    eapply trailing_run_cut; [exact Hl| |].
    + by apply bool_decide_eq_false.
    + intros y Hy. by apply bool_decide_eq_true, Hrun.
  - intros run x post E Hx Hrun. rewrite E in Hr |- *.
    eapply leading_run_cut; [exact Hr| |].
    + by apply bool_decide_eq_false.
    + intros y Hy. by apply bool_decide_eq_true, Hrun.
Qed.

Lemma get_span_for_verb_auxiliaries_correct_witness :
  get_span_for_verb_auxiliaries Ex.AUX_DEPS Ex.had_probably_not_been_running 4
    = Ok (2, 4)%Z.
Proof.
  destruct (get_span_for_verb_auxiliaries_correct
              Ex.AUX_DEPS Ex.had_probably_not_been_running 4)
    as (nl & nr & E & _ & (Hr & _) & Hcut & _).
  assert (nl = 2) as ->.
  { apply (Hcut [0] 1 [2; 3]);
      [reflexivity|refine (proj1 (bool_decide_eq_false _) _); reflexivity|].
    intros y Hy.
    apply elem_of_cons in Hy as [->|Hy];
      [refine (proj1 (bool_decide_eq_true _) _); reflexivity|].
    apply elem_of_cons in Hy as [->|Hy];
      [refine (proj1 (bool_decide_eq_true _) _); reflexivity|].
    by apply elem_of_nil in Hy. }
  assert (nr = 0) as -> by (change (nr ≤ 0) in Hr; lia).
  exact E.
Defined.

Example had_not_been_running_span :
  get_span_for_verb_auxiliaries Ex.AUX_DEPS Ex.had_not_been_running 3
    = Ok (0, 3)%Z.
Proof. reflexivity. Qed.

(** C6.  [get_span_for_compound_noun] returns [(noun - n, noun)] where
    [n] counts the "compound"-labelled left children met one after the
    other when walking the ascending list of left children backward from
    the child nearest the noun; the count stops at the first child that
    is not a compound or when the children run out.  When the two
    nearest left children are compounds and the next one further left is
    a determiner, the span covers three positions and the determiner
    lies before it. *)
Theorem get_span_for_compound_noun_correct d noun :
  let is_compound x := bool_decide (Token.dep_ (tok d x) = "compound") in
  ∃ n,
    get_span_for_compound_noun d noun
      = Ok (Z.of_nat noun - Z.of_nat n, Z.of_nat noun)%Z
    ∧ trailing_run is_compound (lefts d noun) n
    ∧ (∀ pre a b c,
         lefts d noun = pre ++ [a; b; c] →
         Token.dep_ (tok d a) = "det" →
         Token.dep_ (tok d b) = "compound" →
         Token.dep_ (tok d c) = "compound" →
         n = 2
         ∧ (Z.of_nat noun - (Z.of_nat noun - Z.of_nat n) + 1 = 3)%Z
         ∧ (Z.of_nat a < Z.of_nat noun - Z.of_nat n)%Z).
Proof.
  intros is_compound.
  exists (length (takewhile is_compound (reverse (lefts d noun)))).
  pose proof (takewhile_trailing_run is_compound (lefts d noun)) as Hl.
  split; [reflexivity|]. split; [done|].
  intros pre a b c E Ha Hb Hc.
  assert (length (takewhile is_compound (reverse (lefts d noun))) = 2) as ->.
  { rewrite E in Hl |- *. apply (trailing_run_cut _ pre a [b; c]) in Hl; [done| |].
    - apply bool_decide_eq_false. by rewrite Ha.
    - intros y Hy. apply bool_decide_eq_true.
      apply elem_of_cons in Hy as [->|Hy]; [done|].
      apply elem_of_cons in Hy as [->|Hy]; [done|].
      by apply elem_of_nil in Hy. }
  split; [done|]. split; [lia|].
  pose proof (lefts_sorted d noun) as Hs. rewrite E in Hs.
  apply StronglySorted_app_1_r in Hs.
  apply StronglySorted_cons in Hs as [Hab Hs].
  apply StronglySorted_cons in Hs as [Hbc _].
  rewrite Forall_forall in Hab, Hbc.
  assert (a < b) by (apply Hab; set_solver).
  assert (b < c) by (apply Hbc; set_solver).
  assert (c ∈ lefts d noun) as Hcn by (rewrite E; set_solver).
  apply elem_of_lefts in Hcn. lia.
Qed.

Lemma get_span_for_compound_noun_correct_witness :
  get_span_for_compound_noun Ex.ice_cream_shops 3 = Ok (1, 3)%Z
  ∧ (Z.of_nat 0 < 1)%Z.
Proof.
  destruct (get_span_for_compound_noun_correct Ex.ice_cream_shops 3)
    as (n & E & _ & H).
  destruct (H [] 0 1 2 eq_refl eq_refl eq_refl eq_refl) as (-> & _ & Hdet).
  split; [exact E|exact Hdet].
Defined.

(** C10.  Both span resolvers return a range that brackets the head
    token: [get_span_for_compound_noun] gives [(m, noun)] with
    [m <= noun] and [noun - m] at most the number of left children;
    [get_span_for_verb_auxiliaries] gives [(m, M)] with
    [m <= verb <= M], [verb - m] at most the number of left children and
    [M - verb] at most the number of right children. *)
Theorem span_brackets_head (AUX_DEPS : gset string) d i :
  (∃ m, get_span_for_compound_noun d i = Ok (m, Z.of_nat i)
        ∧ (m ≤ Z.of_nat i)%Z
        ∧ (Z.of_nat i - m ≤ Z.of_nat (length (lefts d i)))%Z)
  ∧ (∃ m M, get_span_for_verb_auxiliaries AUX_DEPS d i = Ok (m, M)
            ∧ (m ≤ Z.of_nat i ≤ M)%Z
            ∧ (Z.of_nat i - m ≤ Z.of_nat (length (lefts d i)))%Z
            ∧ (M - Z.of_nat i ≤ Z.of_nat (length (rights d i)))%Z).
Proof.
  split.
  - eexists. split; [reflexivity|].
    pose proof (length_takewhile_le
      (λ x, bool_decide (Token.dep_ (tok d x) = "compound"))
      (reverse (lefts d i))) as H.
    rewrite length_reverse in H. lia.
  - eexists _, _. split; [reflexivity|].
    pose proof (length_takewhile_le
      (λ x, bool_decide (Token.dep_ (tok d x) ∈ AUX_DEPS))
      (reverse (lefts d i))) as H.
    pose proof (length_takewhile_le
      (λ x, bool_decide (Token.dep_ (tok d x) ∈ AUX_DEPS))
      (rights d i)) as H'.
    rewrite length_reverse in H. lia.
Qed.

(** ** The conjunct closure loop *)

Section Closure.
Variable d : Doc.t.

Lemma elem_of_conjuncts_of l c :
  c ∈ conjuncts_of d l ↔ ∃ x, x ∈ l ∧ c ∈ _get_conjuncts d x.
Proof.
  unfold conjuncts_of. rewrite list_elem_of_bind.
  split; intros (x & H1 & H2); exists x; done.
Qed.

Lemma conjuncts_of_app l1 l2 :
  conjuncts_of d (l1 ++ l2) = conjuncts_of d l1 ++ conjuncts_of d l2.
Proof. apply bind_app. Qed.

Lemma generation_conjuncts k front :
  generation (S k) d front = conjuncts_of d (generation k d front).
Proof. revert front. induction k as [|k IH]; intros front; [done|]. apply IH. Qed.

Lemma levels_snoc n front :
  levels (S n) d front = levels n d front ++ generation n d front.
Proof.
  revert front. induction n as [|n IH]; intros front.
  - simpl. by rewrite app_nil_r.
  - change (levels (S (S n)) d front)
      with (front ++ levels (S n) d (conjuncts_of d front)).
    rewrite IH. simpl. by rewrite app_assoc.
Qed.

Lemma conjuncts_of_levels n front :
  conjuncts_of d (levels n d front) = levels n d (conjuncts_of d front).
Proof.
  revert front. induction n as [|n IH]; intros front; [done|].
  simpl. by rewrite conjuncts_of_app, IH.
Qed.

Lemma elem_of_levels n front x :
  x ∈ levels n d front ↔ ∃ k, k < n ∧ x ∈ generation k d front.
Proof.
  revert front. induction n as [|n IH]; intros front; simpl.
  - split; [by intros ?%elem_of_nil|]. intros (k & ? & _). lia.
  - rewrite elem_of_app, IH. split.
    + intros [Hx|(k & Hk & Hx)]; [exists 0|exists (S k)];
        (split; [lia|done]).
    + intros ([|k] & Hk & Hx); [by left|]. right. exists k. split; [lia|done].
Qed.

Lemma generation_lower k front m x :
  (∀ y, y ∈ front → m ≤ y) → x ∈ generation k d front → m + k ≤ x.
Proof.
  revert front m. induction k as [|k IH]; intros front m Hm Hx; simpl in Hx.
  - specialize (Hm x Hx). lia.
  - apply (IH _ (S m)) in Hx; [lia|].
    intros y (z & Hz & Hy%elem_of_get_conjuncts)%elem_of_conjuncts_of.
    specialize (Hm z Hz). lia.
Qed.

Lemma generation_upper k front x :
  x ∈ generation (S k) d front → x < doc_len d.
Proof.
  rewrite generation_conjuncts.
  intros (z & _ & Hx%elem_of_get_conjuncts)%elem_of_conjuncts_of. lia.
Qed.

Lemma generation_empty front : generation (S (doc_len d)) d front = [].
Proof.
  destruct (generation _ _ _) as [|x l] eqn:E; [done|]. exfalso.
  assert (x ∈ generation (S (doc_len d)) d front) as Hx by (rewrite E; left).
  pose proof (generation_upper _ _ _ Hx).
  apply (generation_lower _ _ 0) in Hx; lia.
Qed.

(** Visiting a whole stretch [front] of the list: its conjuncts end up
    behind whatever was already waiting. *)
Lemma extend_block fuel front : ∀ visited waiting,
  extend_with_conjuncts (length front + fuel) d
    (visited ++ front ++ waiting) (length visited)
  = extend_with_conjuncts fuel d
      (visited ++ front ++ waiting ++ conjuncts_of d front)
      (length visited + length front).
Proof.
  induction front as [|x front IH]; intros visited waiting.
  - simpl. by rewrite app_nil_r, Nat.add_0_r.
  - simpl. rewrite list_lookup_middle by done.
    specialize (IH (visited ++ [x]) (waiting ++ _get_conjuncts d x)).
    rewrite length_app in IH; simpl in IH.
    replace (length visited + 1) with (S (length visited)) in IH by lia.
    rewrite <- !app_assoc in IH; simpl in IH.
    rewrite <- ?app_assoc; simpl; rewrite <- ?app_assoc.
    rewrite IH. f_equal. lia.
Qed.

Lemma extend_levels n : ∀ front visited fuel,
  generation n d front = [] →
  length (levels n d front) < fuel →
  extend_with_conjuncts fuel d (visited ++ front) (length visited)
  = Ok (visited ++ levels n d front).
Proof.
  induction n as [|n IH]; intros front visited fuel Hgen Hfuel.
  - simpl in Hgen; subst front. destruct fuel as [|fuel]; [simpl in *; lia|].
    simpl. by rewrite lookup_ge_None_2 by (rewrite app_nil_r; lia).
  - simpl in *. rewrite length_app in Hfuel.
    replace fuel with (length front + (fuel - length front)) by lia.
    pose proof (extend_block (fuel - length front) front visited []) as Hb.
    rewrite !app_nil_r in Hb; simpl in Hb. rewrite Hb.
    specialize (IH (conjuncts_of d front) (visited ++ front)
                   (fuel - length front) Hgen).
    rewrite length_app, <- app_assoc in IH. rewrite IH by lia.
    by rewrite <- app_assoc.
Qed.

(** With enough fuel the loop returns, and what it returns is the
    closure, generation after generation. *)
Lemma extend_closure seeds fuel :
  length (closure d seeds) < fuel →
  extend_with_conjuncts fuel d seeds 0 = Ok (closure d seeds).
Proof.
  intros Hfuel.
  apply (extend_levels (S (doc_len d)) seeds [] fuel); [|done].
  apply generation_empty.
Qed.

Lemma closure_unfold seeds :
  closure d seeds = seeds ++ conjuncts_of d (closure d seeds).
Proof.
  unfold closure at 2. rewrite conjuncts_of_levels, levels_snoc.
  change (generation (doc_len d) d (conjuncts_of d seeds))
    with (generation (S (doc_len d)) d seeds).
  by rewrite generation_empty, app_nil_r.
Qed.

Lemma conj_reach_conjuncts seeds x :
  conj_reach d (conjuncts_of d seeds) x → conj_reach d seeds x.
Proof.
  induction 1 as [s (y & Hy & Hs)%elem_of_conjuncts_of|x c _ IH Hc].
  - eapply reach_conj; [|done]. by apply reach_seed.
  - by eapply reach_conj.
Qed.

Lemma levels_reach n : ∀ seeds x, x ∈ levels n d seeds → conj_reach d seeds x.
Proof.
  induction n as [|n IH]; intros seeds x; simpl.
  - by intros ?%elem_of_nil.
  - intros [Hx|Hx]%elem_of_app; [by apply reach_seed|].
    by apply conj_reach_conjuncts, IH.
Qed.

Lemma closure_reach seeds x : x ∈ closure d seeds ↔ conj_reach d seeds x.
Proof.
  split; [apply levels_reach|].
  induction 1 as [s Hs|y c _ IH Hc]; rewrite closure_unfold, elem_of_app.
  - by left.
  - right. apply elem_of_conjuncts_of. eauto.
Qed.

(** *** No token is listed twice: every token has one head *)

Lemma NoDup_conjuncts_of l : NoDup l → NoDup (conjuncts_of d l).
Proof.
  intros Hl. apply NoDup_bind; [|intros; apply NoDup_get_conjuncts|done].
  intros x1 x2 y _ _ H1%elem_of_get_conjuncts H2%elem_of_get_conjuncts.
  destruct H1 as (_ & _ & <- & _). by destruct H2 as (_ & _ & <- & _).
Qed.

Lemma NoDup_generation k : ∀ front, NoDup front → NoDup (generation k d front).
Proof.
  induction k as [|k IH]; intros front Hf; [done|].
  simpl. by apply IH, NoDup_conjuncts_of.
Qed.

Lemma generation_disjoint seeds :
  (∀ k x, x ∈ seeds → x ∉ generation (S k) d seeds) →
  ∀ j k x, j < k → x ∈ generation j d seeds → x ∉ generation k d seeds.
Proof.
  intros Hfresh j. induction j as [|j IH]; intros k x Hjk Hj Hk.
  - destruct k as [|k]; [lia|]. by apply (Hfresh k x).
  - destruct k as [|k]; [lia|]. rewrite generation_conjuncts in Hj, Hk.
    apply elem_of_conjuncts_of in Hj as (y & Hy & Hxy).
    apply elem_of_conjuncts_of in Hk as (z & Hz & Hxz).
    apply elem_of_get_conjuncts in Hxy as (_ & _ & <- & _).
    apply elem_of_get_conjuncts in Hxz as (_ & _ & <- & _).
    apply (IH k (Token.head (tok d x))); [lia|done|done].
Qed.

Lemma NoDup_levels seeds n :
  NoDup seeds →
  (∀ k x, x ∈ seeds → x ∉ generation (S k) d seeds) →
  NoDup (levels n d seeds).
Proof.
  intros Hs Hfresh. induction n as [|n IH]; [constructor|].
  rewrite levels_snoc. apply NoDup_app. split; [done|]. split.
  - intros x (k & Hk & Hx)%elem_of_levels.
    by apply (generation_disjoint seeds Hfresh k n).
  - by apply NoDup_generation.
Qed.

(** Seeds taken among the left children of [v] never come back as
    conjuncts: a conjunct of [v] would be to the right of [v]. *)
Lemma seeds_fresh_left v seeds :
  (∀ s, s ∈ seeds → s ∈ lefts d v) →
  ∀ k x, x ∈ seeds → x ∉ generation (S k) d seeds.
Proof.
  intros Hsub k x Hx. rewrite generation_conjuncts.
  intros (y & _ & Hxy%elem_of_get_conjuncts)%elem_of_conjuncts_of.
  apply Hsub, elem_of_lefts in Hx. lia.
Qed.

(** Nor do seeds taken among the right children of [v]: everything the
    closure reaches from them lies to the right of [v], so [v] itself
    is never visited. *)
Lemma seeds_fresh_right v seeds :
  (∀ s, s ∈ seeds → s ∈ rights d v) →
  ∀ k x, x ∈ seeds → x ∉ generation (S k) d seeds.
Proof.
  intros Hsub k x Hx. rewrite generation_conjuncts.
  intros (y & Hy & Hxy%elem_of_get_conjuncts)%elem_of_conjuncts_of.
  apply (generation_lower _ _ (S v)) in Hy.
  - apply Hsub, elem_of_rights in Hx. lia.
  - intros s Hs%Hsub%elem_of_rights. lia.
Qed.

Lemma closure_lt_doc_len seeds x :
  (∀ s, s ∈ seeds → s < doc_len d) → x ∈ closure d seeds → x < doc_len d.
Proof.
  intros Hs (k & _ & Hx)%elem_of_levels. destruct k as [|k]; [by apply Hs|].
  by eapply generation_upper.
Qed.

Lemma NoDup_length_le_doc_len (l : list nat) :
  NoDup l → (∀ x, x ∈ l → x < doc_len d) → length l ≤ doc_len d.
Proof.
  intros Hnd Hlt. rewrite <- (length_seq (doc_len d) 0).
  apply submseteq_length, NoDup_submseteq; [done|].
  intros x Hx%Hlt. apply elem_of_seq. lia.
Qed.

Lemma length_levels_app n : ∀ l1 l2,
  length (levels n d (l1 ++ l2))
  = length (levels n d l1) + length (levels n d l2).
Proof.
  induction n as [|n IH]; intros l1 l2; [done|].
  simpl. rewrite conjuncts_of_app, !length_app, IH. lia.
Qed.

(** The closure of the children of [v] on one side holds every token
    at most once and fits in the document. *)
Lemma closure_of_children v seeds :
  NoDup seeds →
  (∀ s, s ∈ seeds → s ∈ lefts d v) ∨ (∀ s, s ∈ seeds → s ∈ rights d v) →
  NoDup (closure d seeds) ∧ length (closure d seeds) ≤ doc_len d.
Proof.
  intros Hnd Hside.
  assert (NoDup (closure d seeds)) as Hc.
  { apply NoDup_levels; [done|].
    destruct Hside; [by eapply seeds_fresh_left|by eapply seeds_fresh_right]. }
  split; [done|]. apply NoDup_length_le_doc_len; [done|].
  intros x. apply closure_lt_doc_len. intros s Hs.
  destruct Hside as [H|H]; specialize (H s Hs).
  - apply elem_of_lefts in H. lia.
  - apply elem_of_rights in H. lia.
Qed.

End Closure.

(** ** Subjects and objects of a verb *)

Lemma subject_seeds_spec (SUBJ_DEPS : gset string) d verb s :
  s ∈ filter (λ t, Token.dep_ (tok d t) ∈ SUBJ_DEPS) (lefts d verb) ↔
  s < verb ∧ s < doc_len d ∧ Token.head (tok d s) = verb
  ∧ Token.dep_ (tok d s) ∈ SUBJ_DEPS.
Proof. rewrite list_elem_of_filter, elem_of_lefts. tauto. Qed.

(** C2.  [get_subjects_of_verb] returns the full conjunct closure of its
    seeds.  The seeds are the left children of the verb whose label is
    in SUBJ_DEPS, in document order.  The result holds exactly the tokens
    reachable from the seeds through "conj"-labelled right children, it
    is a fixed point (it starts with the seeds and continues with the
    conjuncts of its own elements, in the order in which these elements
    appear), and so for a chain in which B hangs off a seed A and C hangs
    off B it holds all three. *)
Theorem get_subjects_of_verb_closure (SUBJ_DEPS : gset string) d verb :
  let seeds := filter (λ t, Token.dep_ (tok d t) ∈ SUBJ_DEPS) (lefts d verb) in
  ∃ subjs,
    (∀ fuel, length subjs < fuel →
             get_subjects_of_verb SUBJ_DEPS fuel d verb = Ok subjs)
    ∧ (∀ s, s ∈ seeds ↔
            s < verb ∧ s < doc_len d ∧ Token.head (tok d s) = verb
            ∧ Token.dep_ (tok d s) ∈ SUBJ_DEPS)
    ∧ StronglySorted lt seeds
    ∧ (∀ t, t ∈ subjs ↔ conj_reach d seeds t)
    ∧ subjs = seeds ++ conjuncts_of d subjs
    ∧ (∀ a b c, a ∈ seeds → b ∈ _get_conjuncts d a → c ∈ _get_conjuncts d b →
                a ∈ subjs ∧ b ∈ subjs ∧ c ∈ subjs).
Proof.
  intros seeds. exists (closure d seeds).
  split; [intros fuel Hfuel; by apply extend_closure|].
  split; [intros s; apply subject_seeds_spec|].
  split; [apply StronglySorted_filter, lefts_sorted|].
  split; [intros t; apply closure_reach|].
  split; [apply closure_unfold|].
  intros a b c Ha Hb Hc. rewrite !closure_reach.
  assert (conj_reach d seeds a) as Ra by by apply reach_seed.
  assert (conj_reach d seeds b) as Rb by by eapply reach_conj.
  split; [done|]. split; [done|]. by eapply reach_conj.
Qed.

Lemma get_subjects_of_verb_closure_witness :
  ∃ subjs,
    get_subjects_of_verb Ex.SUBJ_DEPS (S (length subjs)) Ex.ann_bob_carl 6
      = Ok subjs
    ∧ 0 ∈ subjs ∧ 2 ∈ subjs ∧ 5 ∈ subjs.
Proof.
  destruct (get_subjects_of_verb_closure Ex.SUBJ_DEPS Ex.ann_bob_carl 6)
    as (subjs & Hrun & _ & _ & _ & _ & Hchain).
  exists subjs. split; [apply Hrun; lia|].
  apply (Hchain 0 2 5).
  - change (0 ∈ [0]). apply list_elem_of_here.
  - change (2 ∈ [2]). apply list_elem_of_here.
  - change (5 ∈ [5]). apply list_elem_of_here.
Defined.

Example ann_bob_carl_subjects :
  get_subjects_of_verb Ex.SUBJ_DEPS 4 Ex.ann_bob_carl 6 = Ok [0; 2; 5].
Proof. reflexivity. Qed.

Lemma object_seeds_closure (OBJ_DEPS : gset string) d verb :
  let objs := filter (λ t, Token.dep_ (tok d t) ∈ OBJ_DEPS) (rights d verb) in
  let xcomps := filter (λ t, Token.dep_ (tok d t) = "xcomp") (rights d verb) in
  length (closure d (objs ++ xcomps)) ≤ 2 * doc_len d
  ∧ (NoDup (closure d (objs ++ xcomps)) ↔ NoDup (objs ++ xcomps)).
Proof.
  intros objs xcomps.
  assert (∀ s, s ∈ objs → s ∈ rights d verb) as Ho
    by (intros s Hs%list_elem_of_filter; tauto).
  assert (∀ s, s ∈ xcomps → s ∈ rights d verb) as Hx
    by (intros s Hs%list_elem_of_filter; tauto).
  assert (NoDup objs) as Hno by apply NoDup_filter, NoDup_rights.
  assert (NoDup xcomps) as Hnx by apply NoDup_filter, NoDup_rights.
  split.
  - unfold closure. rewrite length_levels_app.
    pose proof (closure_of_children d verb objs Hno (or_intror Ho)) as [_ H1].
    pose proof (closure_of_children d verb xcomps Hnx (or_intror Hx)) as [_ H2].
    unfold closure in H1, H2. lia.
  - split.
    + rewrite closure_unfold. by intros [H _]%NoDup_app.
    + intros Hnd. apply (closure_of_children d verb); [done|].
      right. intros s [Hs|Hs]%elem_of_app; auto.
Qed.

(** C4, as the code has it.  The seeds of [get_objects_of_verb] are the
    OBJ_DEPS-labelled right children followed by the "xcomp"-labelled
    right children, and nothing is ever tested for membership.  The
    result holds each token at most once unless "xcomp" is a member of
    OBJ_DEPS and the verb has an "xcomp"-labelled right child; in that
    case it does not. *)
Theorem get_objects_of_verb_NoDup (OBJ_DEPS : gset string) d verb :
  ∃ objs,
    (∀ fuel, length objs < fuel →
             get_objects_of_verb OBJ_DEPS fuel d verb = Ok objs)
    ∧ (NoDup objs ↔
       "xcomp" ∉ OBJ_DEPS
       ∨ ∀ x, x ∈ rights d verb → Token.dep_ (tok d x) ≠ "xcomp").
Proof.
  eexists. split; [intros fuel Hfuel; by apply extend_closure|].
  destruct (object_seeds_closure OBJ_DEPS d verb) as [_ ->].
  rewrite NoDup_app. split.
  - intros (_ & Hdisj & _).
    destruct (decide ("xcomp" ∈ OBJ_DEPS)) as [Hin|Hout]; [right|by left].
    intros x Hx Hdep. apply (Hdisj x); apply list_elem_of_filter.
    + by rewrite Hdep.
    + done.
  - intros Hcond. split; [apply NoDup_filter, NoDup_rights|].
    split; [|apply NoDup_filter, NoDup_rights].
    intros s [Hs Hr]%list_elem_of_filter [Hs' _]%list_elem_of_filter.
    destruct Hcond as [Hout|Hnone]; [by rewrite Hs' in Hs|by apply (Hnone s)].
Qed.

Lemma get_objects_of_verb_NoDup_witness :
  ∃ objs,
    get_objects_of_verb Ex.OBJ_DEPS (S (length objs)) Ex.she_wants_to_leave 1
      = Ok objs
    ∧ NoDup objs.
Proof.
  destruct (get_objects_of_verb_NoDup Ex.OBJ_DEPS Ex.she_wants_to_leave 1)
    as (objs & Hrun & Hnd).
  exists objs. split; [apply Hrun; lia|].
  apply Hnd. left. refine (proj1 (bool_decide_eq_false _) _). reflexivity.
Defined.

(** C4 as stated fails: with "xcomp" among OBJ_DEPS the complement of
    "wants" is listed once as an object and once as a complement, and its
    conjunct follows twice. *)
Lemma get_objects_of_verb_duplicates :
  "xcomp" ∈ Ex.OBJ_DEPS_xcomp
  ∧ get_objects_of_verb Ex.OBJ_DEPS_xcomp 5 Ex.she_wants_to_leave 1
    = Ok [3; 3; 5; 5]
  ∧ ¬ NoDup [3; 3; 5; 5].
Proof.
  split; [refine (proj1 (bool_decide_eq_true _) _); reflexivity|].
  split; [reflexivity|].
  intros H. apply NoDup_cons in H as [H _]. apply H. left.
Qed.

(** ** Termination *)

Lemma comes_back_bind {A B} (m : outcome A) (k : A → outcome B) :
  comes_back m → (∀ a, comes_back (k a)) → comes_back (m ≫= k).
Proof. unfold comes_back. destruct m; simpl; auto. Qed.

Lemma doc_getitem_comes_back d z : comes_back (doc_getitem d z).
Proof. unfold doc_getitem. by repeat case_decide. Qed.

Lemma resolve_comes_back d sp : comes_back (resolve d sp).
Proof.
  unfold resolve. destruct (bool_decide _); [|done].
  destruct (token_by_start _ _); [|done]. by destruct (token_by_end _ _).
Qed.

Lemma span_getitem_comes_back d sp i : comes_back (span_getitem d sp i).
Proof.
  apply comes_back_bind; [apply resolve_comes_back|]. intros sl. cbv zeta.
  destruct (decide (Z.of_nat (Span.start sl) ≤ _ < _)%Z);
    [apply doc_getitem_comes_back|done].
Qed.

Lemma words_to_root_comes_back fuel : ∀ d i, comes_back (words_to_root fuel d i).
Proof.
  induction fuel as [|fuel IH]; intros d i; simpl; [done|].
  destruct (decide _); [done|].
  specialize (IH d (Token.head (tok d i))). unfold comes_back in *.
  by destruct (words_to_root fuel d _).
Qed.

Lemma nearest_to_root_comes_back d lo hi l : ∀ best root,
  comes_back (nearest_to_root d lo hi l best root).
Proof.
  induction l as [|i l IH]; intros best root; simpl; [done|].
  destruct (bool_decide _); [apply IH|].
  apply comes_back_bind.
  - unfold _count_words_to_root. destruct (is_space _); [done|].
    apply words_to_root_comes_back.
  - intros words. destruct (decide _); apply IH.
Qed.

Lemma span_root_comes_back d sp : comes_back (span_root d sp).
Proof.
  apply comes_back_bind; [apply resolve_comes_back|]. intros sl.
  destruct (list_find _ _) as [[k i]|]; [apply doc_getitem_comes_back|].
  apply comes_back_bind; [apply nearest_to_root_comes_back|]. intros root.
  apply doc_getitem_comes_back.
Qed.

Lemma _span_to_tuple_comes_back d span : comes_back (_span_to_tuple d span).
Proof.
  unfold _span_to_tuple.
  apply comes_back_bind; [apply span_getitem_comes_back|]. intros first.
  apply comes_back_bind; [apply span_getitem_comes_back|]. intros last.
  apply comes_back_bind; [apply span_root_comes_back|]. intros root.
  apply comes_back_bind; [|by intros text].
  apply comes_back_bind; [apply resolve_comes_back|]. intros sl.
  apply comes_back_bind; [apply span_getitem_comes_back|]. by intros _.
Qed.

Lemma merge_tuple_comes_back d t : comes_back (merge_tuple d t).
Proof.
  destruct t as [[[[start end_] tag] text] label]. unfold merge_tuple, doc_merge.
  destruct (token_by_start _ _); [|done]. destruct (token_by_end _ _); [|done].
  destruct (decide _); [|done].
  apply comes_back_bind; [apply span_root_comes_back|]. by intros root.
Qed.

Lemma merge_spans_comes_back spans : ∀ doc, comes_back (merge_spans spans doc).
Proof.
  induction spans as [|span rest IH]; intros doc; simpl; [done|].
  apply comes_back_bind; [apply _span_to_tuple_comes_back|]. intros t.
  apply comes_back_bind; [apply merge_tuple_comes_back|]. intros doc1.
  apply comes_back_bind; [apply IH|]. by intros [calls doc'].
Qed.

Lemma preserve_case_comes_back is_acronym d i :
  comes_back (preserve_case is_acronym d i).
Proof. unfold preserve_case. by destruct (negb _). Qed.

Lemma normalized_token_comes_back is_acronym d i :
  comes_back (normalized_token is_acronym d i).
Proof.
  apply comes_back_bind; [apply preserve_case_comes_back|]. by intros keep.
Qed.

Lemma normalized_str_comes_back is_acronym d value :
  comes_back (normalized_str is_acronym d value).
Proof.
  destruct value as [i|span|ty]; simpl; [apply normalized_token_comes_back| |done].
  apply comes_back_bind; [|by intros pieces].
  induction (span_tokens d span) as [|j l IH]; simpl; [done|].
  apply comes_back_bind; [apply doc_getitem_comes_back|]. intros subtok.
  apply comes_back_bind; [apply normalized_token_comes_back|]. intros piece.
  apply comes_back_bind; [apply IH|]. by intros pieces.
Qed.

(** C9.  Every operation terminates.  The two loops that walk a list
    while appending to it, in [get_subjects_of_verb] and in
    [get_objects_of_verb], return once they are given more steps than
    the length of their result, which is at most the length of the
    document for subjects and twice that for objects; the result is a
    fixed point: the conjuncts of its elements are already in it.  Right
    children lie to the right of their head, so this holds for every
    document, whether or not its heads form a tree.  The other
    operations are straight-line code over finite lists. *)
Theorem every_operation_terminates
    (str_lower : string → string) (is_acronym : string → bool)
    (SUBJ_DEPS OBJ_DEPS AUX_DEPS : gset string) d i value spans :
  (∃ subjs,
     (∀ fuel, length subjs < fuel →
              get_subjects_of_verb SUBJ_DEPS fuel d i = Ok subjs)
     ∧ length subjs ≤ doc_len d
     ∧ (∀ c, c ∈ conjuncts_of d subjs → c ∈ subjs))
  ∧ (∃ objs,
     (∀ fuel, length objs < fuel →
              get_objects_of_verb OBJ_DEPS fuel d i = Ok objs)
     ∧ length objs ≤ 2 * doc_len d
     ∧ (∀ c, c ∈ conjuncts_of d objs → c ∈ objs))
  ∧ comes_back (is_plural_noun str_lower d i)
  ∧ comes_back (is_negated_verb d i)
  ∧ comes_back (preserve_case is_acronym d i)
  ∧ comes_back (normalized_str is_acronym d value)
  ∧ comes_back (get_span_for_compound_noun d i)
  ∧ comes_back (get_span_for_verb_auxiliaries AUX_DEPS d i)
  ∧ comes_back (merge_spans spans d).
Proof.
  assert (∀ seeds c, c ∈ conjuncts_of d (closure d seeds) → c ∈ closure d seeds)
    as Hfix.
  { intros seeds c Hc. rewrite closure_unfold, elem_of_app. by right. }
  split; [|split].
  - eexists. split; [intros fuel Hfuel; by apply extend_closure|].
    split; [|apply Hfix].
    apply (closure_of_children d i); [apply NoDup_filter, NoDup_lefts|].
    left. intros s Hs%list_elem_of_filter. tauto.
  - eexists. split; [intros fuel Hfuel; by apply extend_closure|].
    split; [|apply Hfix]. apply object_seeds_closure.
  - split; [|split; [|split; [|split; [|split; [|split]]]]].
    + unfold is_plural_noun. by destruct (negb _).
    + unfold is_negated_verb. destruct (negb _); [done|]. by destruct (_ && _).
    + apply preserve_case_comes_back.
    + apply normalized_str_comes_back.
    + done.
    + done.
    + apply merge_spans_comes_back.
Qed.

Lemma every_operation_terminates_witness :
  (∃ subjs, get_subjects_of_verb Ex.SUBJ_DEPS 8 Ex.ann_bob_carl 6 = Ok subjs)
  ∧ (∃ objs, get_objects_of_verb Ex.OBJ_DEPS 15 Ex.ann_bob_carl 6 = Ok objs).
Proof.
  destruct (every_operation_terminates Ex.ascii_lower (λ _, false)
              Ex.SUBJ_DEPS Ex.OBJ_DEPS Ex.AUX_DEPS Ex.ann_bob_carl 6
              (PyToken 6) [])
    as ((subjs & Hs & Hls & _) & (objs & Ho & Hlo & _) & _).
  change (doc_len Ex.ann_bob_carl) with 7 in Hls, Hlo.
  split.
  - exists subjs. apply Hs. lia.
  - exists objs. apply Ho. lia.
Defined.

(** ** The readiness flags *)

Lemma children_same_tokens d d' i :
  Doc.tokens d = Doc.tokens d' → lefts d i = lefts d' i ∧ rights d i = rights d' i.
Proof. intros Ht. unfold lefts, rights, tok, doc_len. by rewrite Ht. Qed.

Lemma extend_with_conjuncts_same_tokens d d' :
  Doc.tokens d = Doc.tokens d' →
  ∀ fuel l k, extend_with_conjuncts fuel d l k = extend_with_conjuncts fuel d' l k.
Proof.
  intros Ht.
  assert (∀ x, _get_conjuncts d x = _get_conjuncts d' x) as Hc.
  { intros x. unfold _get_conjuncts, tok.
    destruct (children_same_tokens d d' x Ht) as [_ ->]. by rewrite Ht. }
  induction fuel as [|fuel IH]; intros l k; simpl; [done|].
  destruct (l !! k); [|done]. by rewrite Hc, IH.
Qed.

(** C3, as the code has it.  Of the operations that read the dependency
    parse, [is_negated_verb] is the one that tests the [is_parsed] flag:
    on a document whose flag is false it raises.  [get_subjects_of_verb],
    [get_objects_of_verb] and the two span resolvers do not look at the
    flag: on such a document they return, and what they return is what
    they return on the same tokens with the flag set. *)
Theorem is_parsed_is_tested_by_is_negated_verb
    (SUBJ_DEPS OBJ_DEPS AUX_DEPS : gset string) d i :
  Doc.is_parsed d = false →
  is_negated_verb d i = Raise (ValueError "token is not parsed")
  ∧ (∃ subjs, ∀ fuel, length subjs < fuel →
       get_subjects_of_verb SUBJ_DEPS fuel d i = Ok subjs
       ∧ get_subjects_of_verb SUBJ_DEPS fuel (with_is_parsed true d) i = Ok subjs)
  ∧ (∃ objs, ∀ fuel, length objs < fuel →
       get_objects_of_verb OBJ_DEPS fuel d i = Ok objs
       ∧ get_objects_of_verb OBJ_DEPS fuel (with_is_parsed true d) i = Ok objs)
  ∧ (∃ span,
       get_span_for_verb_auxiliaries AUX_DEPS d i = Ok span
       ∧ get_span_for_verb_auxiliaries AUX_DEPS (with_is_parsed true d) i = Ok span)
  ∧ (∃ span,
       get_span_for_compound_noun d i = Ok span
       ∧ get_span_for_compound_noun (with_is_parsed true d) i = Ok span).
Proof.
  intros Hp. split; [unfold is_negated_verb; by rewrite Hp|].
  assert (Doc.tokens (with_is_parsed true d) = Doc.tokens d) as Ht by done.
  split; [|split; [|split]].
  - eexists. intros fuel Hfuel. unfold get_subjects_of_verb.
    rewrite (extend_with_conjuncts_same_tokens _ d Ht).
    split; by apply extend_closure.
  - eexists. intros fuel Hfuel. unfold get_objects_of_verb.
    rewrite (extend_with_conjuncts_same_tokens _ d Ht).
    split; by apply extend_closure.
  - by eexists.
  - by eexists.
Qed.

Lemma is_parsed_is_tested_by_is_negated_verb_witness :
  is_negated_verb Ex.unparsed 1 = Raise (ValueError "token is not parsed")
  ∧ (∃ span,
       get_span_for_verb_auxiliaries Ex.AUX_DEPS Ex.unparsed 1 = Ok span
       ∧ get_span_for_verb_auxiliaries
           Ex.AUX_DEPS (with_is_parsed true Ex.unparsed) 1 = Ok span).
Proof.
  destruct (is_parsed_is_tested_by_is_negated_verb
              Ex.SUBJ_DEPS Ex.OBJ_DEPS Ex.AUX_DEPS Ex.unparsed 1 eq_refl)
    as (Hneg & _ & _ & Haux & _).
  split; [exact Hneg|exact Haux].
Defined.

(** C3 as stated fails: on a document that has not been parsed the
    extractors and the span resolver return instead of raising. *)
Lemma unparsed_document_is_not_rejected :
  Doc.is_parsed Ex.unparsed = false
  ∧ get_subjects_of_verb Ex.SUBJ_DEPS 1 Ex.unparsed 1 = Ok []
  ∧ get_objects_of_verb Ex.OBJ_DEPS 1 Ex.unparsed 1 = Ok []
  ∧ get_span_for_verb_auxiliaries Ex.AUX_DEPS Ex.unparsed 1 = Ok (1, 1)%Z.
Proof. repeat split. Qed.

(** ** Span merging *)

(** C1 fails at the batch of the two slices [0,2) and [2,4) over the six
    tokens of [two_chains].  The tuple of the second span is computed
    after the first merge.  The span object finds its two tokens "d e"
    again from their character offsets, but their root has changed: on
    the document as given "d" is three links from the sentence root and
    "e" two, so the root of the span is "e"; once "a b" has become one
    token, "d" is two links away as well and comes first.  The tuple
    passed to the document carries the tag of "d" where the tuple of the
    document as given carries the tag of "e", and the merged token keeps
    it. *)
Theorem merge_spans_reads_the_merged_document :
  fst <$> merge_spans [span_of Ex.two_chains Ex.a_b; span_of Ex.two_chains Ex.d_e]
                      Ex.two_chains
    = Ok [(0, 3, "TA", "a b", "AB"); (4, 7, "TD", "d e", "DE")]
  ∧ gather [span_of Ex.two_chains Ex.a_b; span_of Ex.two_chains Ex.d_e]
           Ex.two_chains
    = Ok [(0, 3, "TA", "a b", "AB"); (4, 7, "TE", "d e", "DE")]
  ∧ (λ r, (λ tk, (Token.text tk, Token.tag_ tk)) <$> Doc.tokens r.2)
      <$> merge_spans [span_of Ex.two_chains Ex.a_b; span_of Ex.two_chains Ex.d_e]
                      Ex.two_chains
    = Ok [("a b", "TA"); ("d e", "TD"); ("x", "TX"); ("r", "TR")]
  ∧ (λ r, (λ tk, (Token.text tk, Token.tag_ tk)) <$> Doc.tokens r.2)
      <$> merge_spans_gather_first
            [span_of Ex.two_chains Ex.a_b; span_of Ex.two_chains Ex.d_e]
            Ex.two_chains
    = Ok [("a b", "TA"); ("d e", "TE"); ("x", "TX"); ("r", "TR")].
Proof. repeat split. Qed.

(** Where every span is a single subtree the offsets bring each later
    span back to its own tokens and the tuples are those of the document
    as given: the two slices [2,4) and [6,8) over ten tokens. *)
Example we_left_new_york_merged :
  fst <$> merge_spans [span_of Ex.we_left_new_york Ex.new_york;
                       span_of Ex.we_left_new_york Ex.san_francisco]
                      Ex.we_left_new_york
    = Ok [(8, 16, "NNP", "New York", "GPE");
          (25, 38, "NNP", "San Francisco", "GPE")]
  ∧ (λ r, Token.text <$> Doc.tokens r.2)
      <$> merge_spans [span_of Ex.we_left_new_york Ex.new_york;
                       span_of Ex.we_left_new_york Ex.san_francisco]
                      Ex.we_left_new_york
    = Ok ["We"; "left"; "New York"; "and"; "saw"; "San Francisco"; "last";
          "year"].
Proof. repeat split. Qed.


(** * Further properties of the module *)

(** ** Case preservation and normalisation *)

(** [preserve_case] raises on a document that is not tagged; on a tagged
    document it answers true exactly for the tokens whose fine-grained tag
    is NNP or NNPS and for those whose text the acronym test accepts. *)
Theorem preserve_case_correct (is_acronym : string → bool) d i :
  (Doc.is_tagged d = false →
     preserve_case is_acronym d i = Raise (ValueError "token is not POS-tagged"))
  ∧ (Doc.is_tagged d = true →
     ∃ b, preserve_case is_acronym d i = Ok b
          ∧ (b = true ↔
             Token.tag_ (tok d i) = "NNP" ∨ Token.tag_ (tok d i) = "NNPS"
             ∨ is_acronym (Token.text (tok d i)) = true)).
Proof.
  unfold preserve_case. split; intros ->; simpl; [done|].
  eexists; split; [reflexivity|].
  rewrite orb_true_iff, bool_decide_eq_true.
  rewrite elem_of_union, !elem_of_singleton. tauto.
Qed.

Lemma preserve_case_correct_witness :
  preserve_case (λ _, false) Ex.unparsed 0
    = Raise (ValueError "token is not POS-tagged")
  ∧ ∃ b, preserve_case (λ _, false) Ex.ann_bob_carl 0 = Ok b
         ∧ (b = true ↔
            Token.tag_ (tok Ex.ann_bob_carl 0) = "NNP"
            ∨ Token.tag_ (tok Ex.ann_bob_carl 0) = "NNPS"
            ∨ (λ _ : string, false) (Token.text (tok Ex.ann_bob_carl 0)) = true).
Proof.
  split.
  - apply (preserve_case_correct (λ _, false) Ex.unparsed 0). reflexivity.
  - apply (preserve_case_correct (λ _, false) Ex.ann_bob_carl 0). reflexivity.
Defined.

(** [normalized_str] on a token.  The tagging requirement of
    [preserve_case] is inherited: on a document that is not tagged the
    call raises the same error.  On a tagged document the answer is the
    text as it stands for proper nouns and acronyms, and the lemma for
    everything else. *)
Theorem normalized_str_token (is_acronym : string → bool) d i :
  (Doc.is_tagged d = false →
     normalized_str is_acronym d (PyToken i)
       = Raise (ValueError "token is not POS-tagged"))
  ∧ (Doc.is_tagged d = true →
     (Token.tag_ (tok d i) = "NNP" ∨ Token.tag_ (tok d i) = "NNPS"
      ∨ is_acronym (Token.text (tok d i)) = true →
      normalized_str is_acronym d (PyToken i) = Ok (Token.text (tok d i)))
     ∧ (Token.tag_ (tok d i) ≠ "NNP" → Token.tag_ (tok d i) ≠ "NNPS" →
        is_acronym (Token.text (tok d i)) = false →
        normalized_str is_acronym d (PyToken i) = Ok (Token.lemma (tok d i)))).
Proof.
  destruct (preserve_case_correct is_acronym d i) as [Hraise Hok].
  split; intros Ht; simpl; unfold normalized_token.
  - by rewrite (Hraise Ht).
  - destruct (Hok Ht) as (b & -> & Hb). simpl. split.
    + intros H. apply Hb in H. by subst b.
    + intros H1 H2 H3. destruct b; [|done].
      destruct Hb as [Hb _]. destruct (Hb eq_refl) as [?|[?|?]]; congruence.
Qed.

Lemma normalized_str_token_witness :
  normalized_str (λ _, false) Ex.unparsed (PyToken 0)
    = Raise (ValueError "token is not POS-tagged")
  ∧ normalized_str (λ _, false) Ex.ann_bob_carl (PyToken 0) = Ok "Ann"
  ∧ normalized_str (λ _, false) Ex.ann_bob_carl (PyToken 6) = Ok "leave".
Proof.
  destruct (normalized_str_token (λ _, false) Ex.unparsed 0) as [H0 _].
  destruct (normalized_str_token (λ _, false) Ex.ann_bob_carl 0) as [_ H1].
  destruct (normalized_str_token (λ _, false) Ex.ann_bob_carl 6) as [_ H2].
  split; [exact (H0 eq_refl)|]. split.
  - apply (H1 eq_refl). by left.
  - by apply (H2 eq_refl).
Defined.

Lemma doc_getitem_in_range d i :
  i < doc_len d → doc_getitem d (Z.of_nat i) = Ok i.
Proof.
  intros Hi. unfold doc_getitem.
  destruct (decide (Z.of_nat i < 0)%Z); [lia|].
  destruct (decide _); [|lia]. by rewrite Nat2Z.id.
Qed.

Lemma normalized_pieces_in_range (is_acronym : string → bool) d l :
  Doc.is_tagged d = true → (∀ i, i ∈ l → i < doc_len d) →
  ∃ pieces,
    normalized_pieces is_acronym d l = Ok pieces
    ∧ Forall2 (λ i piece, normalized_str is_acronym d (PyToken i) = Ok piece)
              l pieces.
Proof.
  intros Ht. induction l as [|i l IH]; intros Hl; simpl.
  - exists []. split; [done|constructor].
  - destruct IH as (pieces & -> & Hall).
    { intros j Hj. apply Hl. by right. }
    assert (i < doc_len d) as Hi by (apply Hl; left).
    rewrite doc_getitem_in_range by done. simpl.
    destruct (preserve_case_correct is_acronym d i) as [_ Hok].
    destruct (Hok Ht) as (b & Hb & _).
    unfold normalized_token at 1. rewrite Hb. simpl.
    eexists. split; [reflexivity|]. constructor; [|done].
    simpl. unfold normalized_token. by rewrite Hb.
Qed.

(** [normalized_str] on a span is the blank-separated sequence of what
    [normalized_str] gives for each of its tokens: on a tagged document,
    for a span that ends inside the document, the call returns, there is
    one piece per token of the span, and every piece is the answer for
    that token alone. *)
Theorem normalized_str_span (is_acronym : string → bool) d span :
  Doc.is_tagged d = true → Span.end_ span ≤ doc_len d →
  ∃ pieces,
    normalized_str is_acronym d (PySpan span) = Ok (join_blank pieces)
    ∧ length pieces = Span.end_ span - Span.start span
    ∧ Forall2 (λ i piece, normalized_str is_acronym d (PyToken i) = Ok piece)
              (span_tokens d span) pieces.
Proof.
  intros Ht Hend.
  destruct (normalized_pieces_in_range is_acronym d (span_tokens d span) Ht)
    as (pieces & Hp & Hall).
  { intros i Hi%elem_of_seq. lia. }
  exists pieces. simpl. rewrite Hp. split; [done|]. split; [|done].
  apply Forall2_length in Hall. rewrite <- Hall.
  unfold span_tokens. by rewrite length_seq.
Qed.

Lemma normalized_str_span_witness :
  ∃ pieces,
    normalized_str (λ _, false) Ex.we_left_new_york (PySpan Ex.new_york)
      = Ok (join_blank pieces)
    ∧ length pieces = 2.
Proof.
  destruct (normalized_str_span (λ _, false) Ex.we_left_new_york Ex.new_york)
    as (pieces & H & Hlen & _); [reflexivity|vm_compute; lia|].
  exists pieces. split; [exact H|exact Hlen].
Defined.

Example new_york_normalized :
  normalized_str (λ _, false) Ex.we_left_new_york (PySpan Ex.new_york)
    = Ok "New York".
Proof. reflexivity. Qed.

(** The readiness test of [normalized_str] sits inside the per-token
    step.  A span that covers no token is therefore normalised to the
    empty string even on a document that is not tagged, while a span
    that covers a token of such a document raises; an argument that is
    neither a token nor a span raises a type error whatever the
    document. *)
Theorem normalized_str_edges (is_acronym : string → bool) d span type_name :
  (Span.end_ span ≤ Span.start span →
     normalized_str is_acronym d (PySpan span) = Ok "")
  ∧ (Doc.is_tagged d = false →
     Span.start span < Span.end_ span → Span.start span < doc_len d →
     normalized_str is_acronym d (PySpan span)
       = Raise (ValueError "token is not POS-tagged"))
  ∧ (∃ msg, normalized_str is_acronym d (PyOther type_name)
            = Raise (TypeError msg)).
Proof.
  split; [|split].
  - intros Hle. simpl. unfold span_tokens.
    by replace (Span.end_ span - Span.start span) with 0 by lia.
  - intros Ht Hlt Hin. simpl. unfold span_tokens.
    destruct (Span.end_ span - Span.start span) as [|n] eqn:E; [lia|].
    simpl. rewrite doc_getitem_in_range by done. simpl.
    unfold normalized_token, preserve_case. by rewrite Ht.
  - by eexists.
Qed.

Lemma normalized_str_edges_witness :
  normalized_str (λ _, false) Ex.unparsed (PySpan (Span.mk 1 1 "")) = Ok ""
  ∧ normalized_str (λ _, false) Ex.unparsed (PySpan (Span.mk 0 2 ""))
    = Raise (ValueError "token is not POS-tagged").
Proof.
  destruct (normalized_str_edges (λ _, false) Ex.unparsed (Span.mk 1 1 "") "")
    as (H1 & _ & _).
  destruct (normalized_str_edges (λ _, false) Ex.unparsed (Span.mk 0 2 "") "")
    as (_ & H2 & _).
  split; [apply H1; simpl; lia|apply H2; [reflexivity|simpl; lia|vm_compute; lia]].
Defined.

(** ** Main verbs of a sentence *)

(** [get_main_verbs_of_sent] keeps the sentence's order and multiplicity
    (its result is a subsequence of the sentence), keeps exactly the
    tokens that are VERBs and are labelled neither "aux" nor "auxpass",
    works piecewise on a sentence given in two parts, and finds nothing
    more when applied to its own result. *)
Theorem get_main_verbs_of_sent_correct d sent sent' :
  get_main_verbs_of_sent d sent `sublist_of` sent
  ∧ (∀ i, i ∈ get_main_verbs_of_sent d sent ↔
          i ∈ sent ∧ Token.pos (tok d i) = VERB
          ∧ Token.dep_ (tok d i) ≠ "aux" ∧ Token.dep_ (tok d i) ≠ "auxpass")
  ∧ get_main_verbs_of_sent d (sent ++ sent')
    = get_main_verbs_of_sent d sent ++ get_main_verbs_of_sent d sent'
  ∧ get_main_verbs_of_sent d (get_main_verbs_of_sent d sent)
    = get_main_verbs_of_sent d sent.
Proof.
  unfold get_main_verbs_of_sent. split; [apply sublist_filter|].
  split; [|split].
  - intros i. rewrite list_elem_of_filter, not_elem_of_union.
    rewrite !not_elem_of_singleton. tauto.
  - apply filter_app.
  - rewrite list_filter_filter. apply list_filter_iff. tauto.
Qed.

Example ann_bob_carl_main_verbs :
  get_main_verbs_of_sent Ex.ann_bob_carl (seq 0 7) = [6]
  ∧ get_main_verbs_of_sent Ex.had_not_been_running (seq 0 4) = [3].
Proof. split; reflexivity. Qed.

(** ** Conjuncts, subjects and objects *)

(** The conjuncts of a token are listed in document order, all lie
    after the token and inside the document, and no token is a conjunct
    of two different tokens; the last token of a document has none. *)
Theorem _get_conjuncts_correct d x :
  StronglySorted lt (_get_conjuncts d x)
  ∧ (∀ c, c ∈ _get_conjuncts d x →
          x < c ∧ c < doc_len d ∧ Token.dep_ (tok d c) = "conj")
  ∧ (∀ y c, c ∈ _get_conjuncts d x → c ∈ _get_conjuncts d y → x = y)
  ∧ (doc_len d ≤ S x → _get_conjuncts d x = []).
Proof.
  split; [apply StronglySorted_filter, rights_sorted|]. split; [|split].
  - intros c Hc%elem_of_get_conjuncts. tauto.
  - intros y c (_ & _ & <- & _)%elem_of_get_conjuncts
             (_ & _ & <- & _)%elem_of_get_conjuncts. done.
  - intros Hlast. unfold _get_conjuncts, rights.
    by replace (doc_len d - S x) with 0 by lia.
Qed.

Lemma _get_conjuncts_correct_witness :
  _get_conjuncts Ex.ann_bob_carl 6 = []
  ∧ ∀ y, 2 ∈ _get_conjuncts Ex.ann_bob_carl y → 0 = y.
Proof.
  destruct (_get_conjuncts_correct Ex.ann_bob_carl 6) as (_ & _ & _ & Hlast).
  destruct (_get_conjuncts_correct Ex.ann_bob_carl 0) as (_ & _ & Hone & _).
  split; [apply Hlast; vm_compute; lia|].
  intros y. apply Hone. change (2 ∈ [2]). apply list_elem_of_here.
Defined.

Lemma closure_member d seeds t :
  t ∈ closure d seeds →
  t ∈ seeds
  ∨ (Token.dep_ (tok d t) = "conj" ∧ Token.head (tok d t) ∈ closure d seeds
     ∧ Token.head (tok d t) < t ∧ t < doc_len d).
Proof.
  rewrite closure_unfold at 1. intros [Ht|Ht]%elem_of_app; [by left|right].
  apply elem_of_conjuncts_of in Ht as (y & Hy & Ht).
  apply elem_of_get_conjuncts in Ht as (Hlt & Hlen & <- & Hdep). done.
Qed.

Lemma closure_above d seeds v t :
  (∀ s, s ∈ seeds → v < s) → t ∈ closure d seeds → v < t.
Proof.
  intros Hs (k & _ & Ht)%elem_of_levels.
  apply (generation_lower _ _ _ (S v)) in Ht; [lia|]. intros s Hv%Hs. lia.
Qed.

(** Every token that [get_subjects_of_verb] returns is accounted for: it
    is a left child of the verb labelled in SUBJ_DEPS, or it is labelled
    "conj" and hangs off an earlier-placed token of the result.  No token
    is returned twice, whatever the label set and the heads. *)
Theorem get_subjects_of_verb_members (SUBJ_DEPS : gset string) d verb :
  ∃ subjs,
    (∀ fuel, length subjs < fuel →
             get_subjects_of_verb SUBJ_DEPS fuel d verb = Ok subjs)
    ∧ NoDup subjs
    ∧ ∀ t, t ∈ subjs →
        t < doc_len d
        ∧ ((t < verb ∧ Token.head (tok d t) = verb
            ∧ Token.dep_ (tok d t) ∈ SUBJ_DEPS)
           ∨ (Token.dep_ (tok d t) = "conj" ∧ Token.head (tok d t) ∈ subjs
              ∧ Token.head (tok d t) < t)).
Proof.
  eexists. split; [intros fuel Hfuel; by apply extend_closure|]. split.
  - apply (closure_of_children d verb); [apply NoDup_filter, NoDup_lefts|].
    left. intros s Hs%list_elem_of_filter. tauto.
  - intros t [Ht|Ht]%closure_member.
    + apply subject_seeds_spec in Ht. split; [tauto|]. left. tauto.
    + split; [tauto|]. right. tauto.
Qed.

Lemma get_subjects_of_verb_members_witness :
  ∃ subjs,
    get_subjects_of_verb Ex.SUBJ_DEPS (S (length subjs)) Ex.ann_bob_carl 6
      = Ok subjs
    ∧ NoDup subjs.
Proof.
  destruct (get_subjects_of_verb_members Ex.SUBJ_DEPS Ex.ann_bob_carl 6)
    as (subjs & Hrun & Hnd & _).
  exists subjs. split; [apply Hrun; lia|exact Hnd].
Defined.

Lemma object_seeds_spec (OBJ_DEPS : gset string) d verb s :
  s ∈ filter (λ t, Token.dep_ (tok d t) ∈ OBJ_DEPS) (rights d verb)
      ++ filter (λ t, Token.dep_ (tok d t) = "xcomp") (rights d verb) ↔
  verb < s ∧ s < doc_len d ∧ Token.head (tok d s) = verb
  ∧ (Token.dep_ (tok d s) ∈ OBJ_DEPS ∨ Token.dep_ (tok d s) = "xcomp").
Proof. rewrite elem_of_app, !list_elem_of_filter, elem_of_rights. tauto. Qed.

(** Every token that [get_objects_of_verb] returns lies after the verb
    and inside the document, so the verb is never its own object; it is
    a right child of the verb labelled in OBJ_DEPS or "xcomp", or it is
    labelled "conj" and hangs off an earlier-placed token of the
    result. *)
Theorem get_objects_of_verb_members (OBJ_DEPS : gset string) d verb :
  ∃ objs,
    (∀ fuel, length objs < fuel →
             get_objects_of_verb OBJ_DEPS fuel d verb = Ok objs)
    ∧ (verb ∉ objs)
    ∧ ∀ t, t ∈ objs →
        verb < t ∧ t < doc_len d
        ∧ ((Token.head (tok d t) = verb
            ∧ (Token.dep_ (tok d t) ∈ OBJ_DEPS ∨ Token.dep_ (tok d t) = "xcomp"))
           ∨ (Token.dep_ (tok d t) = "conj" ∧ Token.head (tok d t) ∈ objs
              ∧ Token.head (tok d t) < t)).
Proof.
  eexists. split; [intros fuel Hfuel; by apply extend_closure|].
  assert (∀ t, t ∈ closure d
            (filter (λ t, Token.dep_ (tok d t) ∈ OBJ_DEPS) (rights d verb)
             ++ filter (λ t, Token.dep_ (tok d t) = "xcomp") (rights d verb)) →
          verb < t) as Habove.
  { intros t. apply closure_above. intros s Hs%object_seeds_spec. tauto. }
  split.
  - intros Hv%Habove. lia.
  - intros t Ht. split; [by apply Habove|].
    apply closure_member in Ht as [Ht|Ht].
    + apply object_seeds_spec in Ht. split; [tauto|]. left. tauto.
    + split; [tauto|]. right. tauto.
Qed.

Lemma get_objects_of_verb_members_witness :
  ∃ objs,
    get_objects_of_verb Ex.OBJ_DEPS (S (length objs)) Ex.we_left_new_york 1
      = Ok objs
    ∧ 1 ∉ objs.
Proof.
  destruct (get_objects_of_verb_members Ex.OBJ_DEPS Ex.we_left_new_york 1)
    as (objs & Hrun & Hv & _).
  exists objs. split; [apply Hrun; lia|exact Hv].
Defined.

Lemma subject_object_apart (SUBJ_DEPS OBJ_DEPS : gset string) d verb x :
  "conj" ∉ OBJ_DEPS ∨ Token.dep_ (tok d verb) ≠ "conj" →
  conj_reach d (filter (λ t, Token.dep_ (tok d t) ∈ SUBJ_DEPS) (lefts d verb)) x →
  conj_reach d
    (filter (λ t, Token.dep_ (tok d t) ∈ OBJ_DEPS) (rights d verb)
     ++ filter (λ t, Token.dep_ (tok d t) = "xcomp") (rights d verb)) x →
  False.
Proof.
  intros Hcond Hs. induction Hs as [s Hs|y c Hy IH Hc]; intros Ho.
  - apply subject_seeds_spec in Hs.
    apply closure_reach, (closure_above _ _ verb) in Ho; [lia|].
    intros o Ho'%object_seeds_spec. tauto.
  - apply elem_of_get_conjuncts in Hc as (Hyc & Hclen & Hhead & Hdep).
    inversion Ho as [o Hseed|z c' Hz Hc']; subst.
    + apply object_seeds_spec in Hseed as (_ & _ & Hv & Hlab).
      destruct Hcond as [Hcond|Hcond].
      * rewrite Hdep in Hlab. destruct Hlab; [done|discriminate].
      * rewrite Hv in Hy. inversion Hy as [s Hs|z c' Hz Hc']; subst.
        -- apply subject_seeds_spec in Hs. lia.
        -- apply elem_of_get_conjuncts in Hc'. tauto.
    + apply elem_of_get_conjuncts in Hc' as (_ & _ & <- & _). by apply IH.
Qed.

(** A token is never both a subject and an object of the same verb, as
    long as "conj" is not one of the object labels or the verb itself is
    not labelled "conj". *)
Theorem subjects_and_objects_disjoint (SUBJ_DEPS OBJ_DEPS : gset string) d verb :
  "conj" ∉ OBJ_DEPS ∨ Token.dep_ (tok d verb) ≠ "conj" →
  ∃ subjs objs,
    (∀ fuel, length subjs < fuel →
             get_subjects_of_verb SUBJ_DEPS fuel d verb = Ok subjs)
    ∧ (∀ fuel, length objs < fuel →
               get_objects_of_verb OBJ_DEPS fuel d verb = Ok objs)
    ∧ ∀ t, t ∈ subjs → t ∉ objs.
Proof.
  intros Hcond. eexists _, _.
  split; [intros fuel Hfuel; by apply extend_closure|].
  split; [intros fuel Hfuel; by apply extend_closure|].
  intros t Hs%closure_reach Ho%closure_reach.
  by eapply subject_object_apart.
Qed.

Lemma subjects_and_objects_disjoint_witness :
  ∃ subjs objs,
    get_subjects_of_verb Ex.SUBJ_DEPS (S (length subjs)) Ex.we_left_new_york 1
      = Ok subjs
    ∧ get_objects_of_verb Ex.OBJ_DEPS (S (length objs)) Ex.we_left_new_york 1
      = Ok objs
    ∧ ∀ t, t ∈ subjs → t ∉ objs.
Proof.
  destruct (subjects_and_objects_disjoint
              Ex.SUBJ_DEPS Ex.OBJ_DEPS Ex.we_left_new_york 1)
    as (subjs & objs & Hs & Ho & Hdisj).
  - left. refine (proj1 (bool_decide_eq_false _) _). reflexivity.
  - exists subjs, objs. split; [apply Hs; lia|]. split; [apply Ho; lia|exact Hdisj].
Defined.

Lemma closure_nil d seeds : closure d seeds = [] ↔ seeds = [].
Proof.
  split.
  - rewrite closure_unfold. by intros [-> _]%app_eq_nil.
  - intros ->. unfold closure. generalize (S (doc_len d)).
    induction n as [|n IH]; [done|]. simpl. exact IH.
Qed.

(** A verb has no subjects exactly when none of its left children is
    labelled in SUBJ_DEPS, and no objects exactly when none of its right
    children is labelled in OBJ_DEPS or "xcomp": conjuncts alone never
    make a result non-empty. *)
Theorem no_subjects_no_objects (SUBJ_DEPS OBJ_DEPS : gset string) d verb :
  (∃ subjs,
     (∀ fuel, length subjs < fuel →
              get_subjects_of_verb SUBJ_DEPS fuel d verb = Ok subjs)
     ∧ (subjs = [] ↔
        ∀ s, s ∈ lefts d verb → Token.dep_ (tok d s) ∉ SUBJ_DEPS))
  ∧ (∃ objs,
     (∀ fuel, length objs < fuel →
              get_objects_of_verb OBJ_DEPS fuel d verb = Ok objs)
     ∧ (objs = [] ↔
        ∀ s, s ∈ rights d verb →
             (Token.dep_ (tok d s) ∉ OBJ_DEPS) ∧ Token.dep_ (tok d s) ≠ "xcomp")).
Proof.
  split; eexists; (split; [intros fuel Hfuel; by apply extend_closure|]);
    rewrite closure_nil.
  - split.
    + intros Hnil s Hs Hlab.
      assert (s ∈ filter (λ t, Token.dep_ (tok d t) ∈ SUBJ_DEPS) (lefts d verb))
        as Hin by by apply list_elem_of_filter.
      rewrite Hnil in Hin. by apply elem_of_nil in Hin.
    + intros Hnone. apply elem_of_nil_inv.
      intros s [Hlab Hs]%list_elem_of_filter. by apply (Hnone s).
  - split.
    + intros [Ho Hx]%app_eq_nil s Hs. split.
      * intros Hlab.
        assert (s ∈ filter (λ t, Token.dep_ (tok d t) ∈ OBJ_DEPS) (rights d verb))
          as Hin by by apply list_elem_of_filter.
        rewrite Ho in Hin. by apply elem_of_nil in Hin.
      * intros Hlab.
        assert (s ∈ filter (λ t, Token.dep_ (tok d t) = "xcomp") (rights d verb))
          as Hin by by apply list_elem_of_filter.
        rewrite Hx in Hin. by apply elem_of_nil in Hin.
    + intros Hnone. apply elem_of_nil_inv.
      intros s [[Hlab Hs]%list_elem_of_filter|[Hlab Hs]%list_elem_of_filter]%elem_of_app;
        by destruct (Hnone s Hs).
Qed.

Lemma no_subjects_no_objects_witness :
  get_subjects_of_verb Ex.SUBJ_DEPS 1 Ex.ann_bob_carl 0 = Ok []
  ∧ get_objects_of_verb Ex.OBJ_DEPS 1 Ex.ann_bob_carl 6 = Ok [].
Proof.
  destruct (no_subjects_no_objects Ex.SUBJ_DEPS Ex.OBJ_DEPS Ex.ann_bob_carl 0)
    as [(subjs & Hs & Hnil) _].
  destruct (no_subjects_no_objects Ex.SUBJ_DEPS Ex.OBJ_DEPS Ex.ann_bob_carl 6)
    as [_ (objs & Ho & Hnil')].
  assert (subjs = []) as ->.
  { apply Hnil. intros s Hs'. change (lefts Ex.ann_bob_carl 0) with (@nil nat) in Hs'.
    by apply elem_of_nil in Hs'. }
  assert (objs = []) as ->.
  { apply Hnil'. intros s Hs'. change (rights Ex.ann_bob_carl 6) with (@nil nat) in Hs'.
    by apply elem_of_nil in Hs'. }
  split; [apply Hs|apply Ho]; simpl; lia.
Defined.

Lemma conj_reach_mono d seeds seeds' x :
  (∀ s, s ∈ seeds → s ∈ seeds') → conj_reach d seeds x → conj_reach d seeds' x.
Proof.
  intros Hsub. induction 1 as [s Hs|y c _ IH Hc].
  - by apply reach_seed, Hsub.
  - by eapply reach_conj.
Qed.

(** Enlarging the label set can only add subjects (likewise objects):
    every subject found with the smaller set is found with the larger. *)
Theorem more_labels_more_subjects (DEPS DEPS' : gset string) d verb :
  DEPS ⊆ DEPS' →
  ∃ subjs subjs' objs objs',
    (∀ fuel, length subjs < fuel →
             get_subjects_of_verb DEPS fuel d verb = Ok subjs)
    ∧ (∀ fuel, length subjs' < fuel →
               get_subjects_of_verb DEPS' fuel d verb = Ok subjs')
    ∧ (∀ fuel, length objs < fuel →
               get_objects_of_verb DEPS fuel d verb = Ok objs)
    ∧ (∀ fuel, length objs' < fuel →
               get_objects_of_verb DEPS' fuel d verb = Ok objs')
    ∧ (∀ t, t ∈ subjs → t ∈ subjs')
    ∧ (∀ t, t ∈ objs → t ∈ objs').
Proof.
  intros Hsub. eexists _, _, _, _.
  do 4 (split; [intros fuel Hfuel; by apply extend_closure|]).
  split; intros t; rewrite !closure_reach; apply conj_reach_mono; intros s.
  - rewrite !list_elem_of_filter. intros [Hl Hs]. split; [by apply Hsub|done].
  - rewrite !object_seeds_spec. intros (? & ? & ? & [Hl|Hl]); repeat split; auto.
Qed.

Lemma more_labels_more_subjects_witness :
  ("nsubj" ∉ ({[ "dobj" ]} : gset string))
  ∧ ("nsubj" ∈ ({[ "dobj"; "nsubj"; "cc" ]} : gset string))
  ∧ ∃ subjs subjs' objs objs',
      get_subjects_of_verb {[ "dobj" ]} (S (length subjs)) Ex.we_left_new_york 1
        = Ok subjs
      ∧ get_subjects_of_verb {[ "dobj"; "nsubj"; "cc" ]} (S (length subjs'))
          Ex.we_left_new_york 1 = Ok subjs'
      ∧ get_objects_of_verb {[ "dobj" ]} (S (length objs)) Ex.we_left_new_york 1
        = Ok objs
      ∧ get_objects_of_verb {[ "dobj"; "nsubj"; "cc" ]} (S (length objs'))
          Ex.we_left_new_york 1 = Ok objs'
      ∧ (∀ t, t ∈ subjs → t ∈ subjs')
      ∧ (∀ t, t ∈ objs → t ∈ objs').
Proof.
  split; [refine (proj1 (bool_decide_eq_false _) _); reflexivity|].
  split; [refine (proj1 (bool_decide_eq_true _) _); reflexivity|].
  destruct (more_labels_more_subjects {[ "dobj" ]} {[ "dobj"; "nsubj"; "cc" ]}
              Ex.we_left_new_york 1)
    as (subjs & subjs' & objs & objs' & Hs & Hs' & Ho & Ho' & Hsub & Hsub').
  - apply union_subseteq_l', union_subseteq_l.
  - exists subjs, subjs', objs, objs'.
    split; [apply Hs; lia|]. split; [apply Hs'; lia|].
    split; [apply Ho; lia|]. split; [apply Ho'; lia|].
    split; [exact Hsub|exact Hsub'].
Defined.

Example more_labels_more_subjects_grow :
  get_subjects_of_verb {[ "dobj" ]} 1 Ex.we_left_new_york 1 = Ok []
  ∧ get_subjects_of_verb {[ "dobj"; "nsubj"; "cc" ]} 2 Ex.we_left_new_york 1
    = Ok [0]
  ∧ get_objects_of_verb {[ "dobj" ]} 2 Ex.we_left_new_york 1 = Ok [3]
  ∧ get_objects_of_verb {[ "dobj"; "nsubj"; "cc" ]} 3 Ex.we_left_new_york 1
    = Ok [3; 4].
Proof. repeat split. Qed.

(** ** Span boundaries and the positions of the counted children *)

Lemma sorted_lookup_lt (l : list nat) a b x y :
  StronglySorted lt l → a < b → l !! a = Some x → l !! b = Some y → x < y.
Proof.
  intros Hs Hab Ha Hb. rewrite <- (take_drop b l) in Hs.
  apply (StronglySorted_app_1_elem_of _ _ _ x y Hs).
  - apply (list_elem_of_lookup_2 _ a). by rewrite lookup_take_lt.
  - apply (list_elem_of_lookup_2 _ 0). by rewrite lookup_drop, Nat.add_0_r.
Qed.

Lemma sorted_lookup_gap (l : list nat) a k x y :
  StronglySorted lt l → l !! a = Some x → l !! (a + k) = Some y → x + k ≤ y.
Proof.
  intros Hs Ha. revert y. induction k as [|k IH]; intros y Hy.
  - rewrite Nat.add_0_r in Hy. assert (x = y) by congruence. lia.
  - destruct (lookup_lt_is_Some_2 l (a + k)) as [z Hz].
    { apply lookup_lt_Some in Hy. lia. }
    specialize (IH z Hz).
    assert (z < y) by (apply (sorted_lookup_lt l (a + k) (a + S k)); [done|lia|done|done]).
    lia.
Qed.

Lemma left_run_positions d i (p : nat → bool) n k c :
  trailing_run p (lefts d i) n → k < n →
  lefts d i !! (length (lefts d i) - 1 - k) = Some c →
  c + k < i ∧ p c = true.
Proof.
  intros (Hn & Hrun & _) Hk Hc. split; [|by eapply Hrun].
  destruct (lookup_lt_is_Some_2 (lefts d i) (length (lefts d i) - 1)) as [z Hz];
    [lia|].
  assert (z < i).
  { apply list_elem_of_lookup_2, elem_of_lefts in Hz. lia. }
  assert (c + k ≤ z); [|lia].
  apply (sorted_lookup_gap (lefts d i) (length (lefts d i) - 1 - k));
    [apply lefts_sorted|done|].
  rewrite <- Hz. f_equal. lia.
Qed.

Lemma left_run_contiguous d i (p : nat → bool) n j :
  trailing_run p (lefts d i) n → n ≤ i →
  lefts d i !! (length (lefts d i) - n) = Some (i - n) →
  i - n ≤ j → j < i →
  Token.head (tok d j) = i ∧ p j = true.
Proof.
  intros Hrun Hni Hfar Hlo Hhi.
  pose proof Hrun as (Hn & _ & _).
  destruct (lookup_lt_is_Some_2 (lefts d i) (length (lefts d i) - 1 - (i - 1 - j)))
    as [c Hc]; [lia|].
  destruct (left_run_positions d i p n (i - 1 - j) c Hrun) as [Hup Hp];
    [lia|done|].
  assert (i - n + (n - 1 - (i - 1 - j)) ≤ c) as Hdown.
  { apply (sorted_lookup_gap (lefts d i) (length (lefts d i) - n));
      [apply lefts_sorted|done|].
    rewrite <- Hc. f_equal. lia. }
  assert (c = j) as -> by lia.
  split; [|done]. apply list_elem_of_lookup_2, elem_of_lefts in Hc. tauto.
Qed.

Lemma right_run_positions d i (p : nat → bool) n k c :
  leading_run p (rights d i) n → k < n → rights d i !! k = Some c →
  i + k < c ∧ p c = true.
Proof.
  intros (Hn & Hrun & _) Hk Hc. split; [|by eapply Hrun].
  destruct (lookup_lt_is_Some_2 (rights d i) 0) as [z Hz]; [lia|].
  assert (i < z).
  { apply list_elem_of_lookup_2, elem_of_rights in Hz. lia. }
  assert (z + k ≤ c); [|lia].
  apply (sorted_lookup_gap (rights d i) 0 k); [apply rights_sorted|done|done].
Qed.

Lemma right_run_contiguous d i (p : nat → bool) n j :
  leading_run p (rights d i) n → 0 < n →
  rights d i !! (n - 1) = Some (i + n) →
  i < j → j ≤ i + n →
  Token.head (tok d j) = i ∧ p j = true.
Proof.
  intros Hrun Hpos Hfar Hlo Hhi.
  pose proof Hrun as (Hn & _ & _).
  destruct (lookup_lt_is_Some_2 (rights d i) (j - i - 1)) as [c Hc]; [lia|].
  destruct (right_run_positions d i p n (j - i - 1) c Hrun) as [Hdown Hp];
    [lia|done|].
  assert (c + (n - 1 - (j - i - 1)) ≤ i + n) as Hup.
  { apply (sorted_lookup_gap (rights d i) (j - i - 1)); [apply rights_sorted|done|].
    rewrite <- Hfar. f_equal. lia. }
  assert (c = j) as -> by lia.
  split; [|done]. apply list_elem_of_lookup_2, elem_of_rights in Hc. tauto.
Qed.

(** The compound span counts children, not positions.  The counted
    child that is [k]-th nearest to the noun sits at least [k + 1]
    positions before it, so the span [(noun - n, noun)] never starts
    before the farthest counted compound.  When that farthest compound
    sits exactly at the start of the span, every position of the span
    before the noun is a "compound"-labelled child of the noun. *)
Theorem compound_span_positions d noun :
  ∃ n,
    get_span_for_compound_noun d noun
      = Ok (Z.of_nat noun - Z.of_nat n, Z.of_nat noun)%Z
    ∧ n ≤ noun
    ∧ (∀ k c, k < n →
              lefts d noun !! (length (lefts d noun) - 1 - k) = Some c →
              c + k < noun ∧ Token.dep_ (tok d c) = "compound")
    ∧ (lefts d noun !! (length (lefts d noun) - n) = Some (noun - n) →
       ∀ j, noun - n ≤ j → j < noun →
            Token.head (tok d j) = noun ∧ Token.dep_ (tok d j) = "compound").
Proof.
  set (p := λ x, bool_decide (Token.dep_ (tok d x) = "compound")).
  exists (length (takewhile p (reverse (lefts d noun)))).
  pose proof (takewhile_trailing_run p (lefts d noun)) as Hrun.
  assert (length (takewhile p (reverse (lefts d noun))) ≤ noun) as Hle.
  { destruct Hrun as [Hn _]. pose proof (length_lefts_le d noun). lia. }
  split; [reflexivity|]. split; [done|]. split.
  - intros k c Hk Hc.
    destruct (left_run_positions d noun p _ k c Hrun Hk Hc) as [H1 H2].
    split; [done|]. by apply bool_decide_eq_true in H2.
  - intros Hfar j Hlo Hhi.
    destruct (left_run_contiguous d noun p _ j Hrun Hle Hfar Hlo Hhi) as [H1 H2].
    split; [done|]. by apply bool_decide_eq_true in H2.
Qed.

Lemma compound_span_positions_witness :
  ∃ n,
    get_span_for_compound_noun Ex.ice_cream_shops 3
      = Ok (Z.of_nat 3 - Z.of_nat n, Z.of_nat 3)%Z
    ∧ (lefts Ex.ice_cream_shops 3 !! (length (lefts Ex.ice_cream_shops 3) - 1 - 0)
         = Some 2 →
       2 + 0 < 3 ∧ Token.dep_ (tok Ex.ice_cream_shops 2) = "compound").
Proof.
  destruct (compound_span_positions Ex.ice_cream_shops 3)
    as (n & Hspan & _ & Hpos & _).
  exists n. split; [exact Hspan|].
  apply Hpos. destruct n as [|n]; [discriminate Hspan|lia].
Defined.

(** The same for auxiliaries, on both sides of the verb: the span never
    reaches beyond the farthest counted auxiliary on either side, and a
    side whose farthest counted auxiliary sits exactly at the end of the
    span consists of AUX_DEPS-labelled children of the verb only. *)
Theorem auxiliary_span_positions (AUX_DEPS : gset string) d verb :
  ∃ nl nr,
    get_span_for_verb_auxiliaries AUX_DEPS d verb
      = Ok (Z.of_nat verb - Z.of_nat nl, Z.of_nat verb + Z.of_nat nr)%Z
    ∧ (∀ k c, k < nl →
              lefts d verb !! (length (lefts d verb) - 1 - k) = Some c →
              c + k < verb ∧ Token.dep_ (tok d c) ∈ AUX_DEPS)
    ∧ (∀ k c, k < nr → rights d verb !! k = Some c →
              verb + k < c ∧ Token.dep_ (tok d c) ∈ AUX_DEPS)
    ∧ (lefts d verb !! (length (lefts d verb) - nl) = Some (verb - nl) →
       ∀ j, verb - nl ≤ j → j < verb →
            Token.head (tok d j) = verb ∧ Token.dep_ (tok d j) ∈ AUX_DEPS)
    ∧ (0 < nr → rights d verb !! (nr - 1) = Some (verb + nr) →
       ∀ j, verb < j → j ≤ verb + nr →
            Token.head (tok d j) = verb ∧ Token.dep_ (tok d j) ∈ AUX_DEPS).
Proof.
  set (p := λ x, bool_decide (Token.dep_ (tok d x) ∈ AUX_DEPS)).
  exists (length (takewhile p (reverse (lefts d verb)))),
         (length (takewhile p (rights d verb))).
  pose proof (takewhile_trailing_run p (lefts d verb)) as Hl.
  pose proof (takewhile_leading_run p (rights d verb)) as Hr.
  assert (length (takewhile p (reverse (lefts d verb))) ≤ verb) as Hle.
  { destruct Hl as [Hn _]. pose proof (length_lefts_le d verb). lia. }
  split; [reflexivity|]. split; [|split; [|split]].
  - intros k c Hk Hc.
    destruct (left_run_positions d verb p _ k c Hl Hk Hc) as [H1 H2].
    split; [done|]. by apply bool_decide_eq_true in H2.
  - intros k c Hk Hc.
    destruct (right_run_positions d verb p _ k c Hr Hk Hc) as [H1 H2].
    split; [done|]. by apply bool_decide_eq_true in H2.
  - intros Hfar j Hlo Hhi.
    destruct (left_run_contiguous d verb p _ j Hl Hle Hfar Hlo Hhi) as [H1 H2].
    split; [done|]. by apply bool_decide_eq_true in H2.
  - intros Hpos Hfar j Hlo Hhi.
    destruct (right_run_contiguous d verb p _ j Hr Hpos Hfar Hlo Hhi) as [H1 H2].
    split; [done|]. by apply bool_decide_eq_true in H2.
Qed.

Lemma auxiliary_span_positions_witness :
  Token.head (tok Ex.had_not_been_running 1) = 3
  ∧ Token.dep_ (tok Ex.had_not_been_running 1) ∈ Ex.AUX_DEPS.
Proof.
  destruct (auxiliary_span_positions Ex.AUX_DEPS Ex.had_not_been_running 3)
    as (nl & nr & Hspan & _ & _ & Hleft & _).
  assert (nl = 3) as ->.
  { change (get_span_for_verb_auxiliaries Ex.AUX_DEPS Ex.had_not_been_running 3)
      with (@Ok (Z * Z) (0, 3)%Z) in Hspan.
    injection Hspan as H1 H2. lia. }
  apply Hleft; [reflexivity|simpl; lia|lia].
Defined.

(** Both resolvers stay inside the document: for a token of the
    document, the lower end of either span is not negative and the upper
    end of the auxiliary span is a position of the document. *)
Theorem spans_inside_document (AUX_DEPS : gset string) d i :
  i < doc_len d →
  ∃ m m' M,
    get_span_for_compound_noun d i = Ok (m, Z.of_nat i)
    ∧ get_span_for_verb_auxiliaries AUX_DEPS d i = Ok (m', M)
    ∧ (0 ≤ m)%Z ∧ (0 ≤ m')%Z ∧ (M < Z.of_nat (doc_len d))%Z.
Proof.
  intros Hi. eexists _, _, _. split; [reflexivity|]. split; [reflexivity|].
  pose proof (length_takewhile_le
    (λ x, bool_decide (Token.dep_ (tok d x) = "compound"))
    (reverse (lefts d i))) as H1.
  pose proof (length_takewhile_le
    (λ x, bool_decide (Token.dep_ (tok d x) ∈ AUX_DEPS))
    (reverse (lefts d i))) as H2.
  pose proof (length_takewhile_le
    (λ x, bool_decide (Token.dep_ (tok d x) ∈ AUX_DEPS)) (rights d i)) as H3.
  rewrite length_reverse in H1, H2.
  pose proof (length_lefts_le d i). pose proof (length_rights_le d i). lia.
Qed.

Lemma spans_inside_document_witness :
  ∃ m m' M,
    get_span_for_compound_noun Ex.ice_cream_shops 3 = Ok (m, Z.of_nat 3)
    ∧ get_span_for_verb_auxiliaries Ex.AUX_DEPS Ex.ice_cream_shops 3 = Ok (m', M)
    ∧ (0 ≤ m)%Z ∧ (0 ≤ m')%Z ∧ (M < Z.of_nat (doc_len Ex.ice_cream_shops))%Z.
Proof.
  apply (spans_inside_document Ex.AUX_DEPS Ex.ice_cream_shops 3).
  vm_compute. lia.
Defined.

Lemma takewhile_nil_iff {A} (p : A → bool) l :
  length (takewhile p l) = 0 ↔ ∀ x, head l = Some x → p x = false.
Proof.
  destruct l as [|y l]; simpl; [by split|].
  destruct (p y) eqn:E; simpl; split; try done.
  - intros H. specialize (H y eq_refl). congruence.
  - intros _ x [= <-]. done.
Qed.

(** A resolver returns the bare head token exactly when the walk stops
    at once: [get_span_for_compound_noun] gives [(noun, noun)] when and
    only when the nearest left child, if there is one, is not labelled
    "compound"; [get_span_for_verb_auxiliaries] gives [(verb, verb)] when
    and only when neither the nearest left child nor the nearest right
    child is labelled in AUX_DEPS. *)
Theorem bare_span (AUX_DEPS : gset string) d i :
  (get_span_for_compound_noun d i = Ok (Z.of_nat i, Z.of_nat i) ↔
   ∀ c, last (lefts d i) = Some c → Token.dep_ (tok d c) ≠ "compound")
  ∧ (get_span_for_verb_auxiliaries AUX_DEPS d i = Ok (Z.of_nat i, Z.of_nat i) ↔
     (∀ c, last (lefts d i) = Some c → Token.dep_ (tok d c) ∉ AUX_DEPS)
     ∧ (∀ c, head (rights d i) = Some c → Token.dep_ (tok d c) ∉ AUX_DEPS)).
Proof.
  unfold get_span_for_compound_noun, get_span_for_verb_auxiliaries. split.
  - set (p := λ x, bool_decide (Token.dep_ (tok d x) = "compound")).
    pose proof (takewhile_nil_iff p (reverse (lefts d i))) as Hz.
    rewrite head_reverse in Hz. split.
    + intros [= H] c Hc.
      assert (p c = false) as Hp by (apply Hz; [lia|done]).
      by apply bool_decide_eq_false in Hp.
    + intros H. replace (length (takewhile p (reverse (lefts d i)))) with 0.
      * do 2 f_equal. lia.
      * symmetry. apply Hz. intros c Hc. unfold p.
        rewrite bool_decide_eq_false. by apply H.
  - set (p := λ x, bool_decide (Token.dep_ (tok d x) ∈ AUX_DEPS)).
    pose proof (takewhile_nil_iff p (reverse (lefts d i))) as Hl.
    pose proof (takewhile_nil_iff p (rights d i)) as Hr.
    rewrite head_reverse in Hl. split.
    + intros [= H1 H2]. split; intros c Hc.
      * assert (p c = false) as Hp by (apply Hl; [lia|done]).
        by apply bool_decide_eq_false in Hp.
      * assert (p c = false) as Hp by (apply Hr; [lia|done]).
        by apply bool_decide_eq_false in Hp.
    + intros [H1 H2].
      replace (length (takewhile p (reverse (lefts d i)))) with 0.
      * replace (length (takewhile p (rights d i))) with 0.
        -- do 2 f_equal; lia.
        -- symmetry. apply Hr. intros c Hc. unfold p.
           rewrite bool_decide_eq_false. by apply H2.
      * symmetry. apply Hl. intros c Hc. unfold p.
        rewrite bool_decide_eq_false. by apply H1.
Qed.

Lemma bare_span_witness :
  get_span_for_compound_noun Ex.she_did_sleep 2 = Ok (Z.of_nat 2, Z.of_nat 2).
Proof.
  apply (bare_span Ex.AUX_DEPS Ex.she_did_sleep 2).
  intros c Hc. change (last (lefts Ex.she_did_sleep 2)) with (Some 1) in Hc.
  injection Hc as <-. discriminate.
Defined.

Lemma takewhile_ext {A} (p q : A → bool) l :
  (∀ x, p x = q x) → takewhile p l = takewhile q l.
Proof.
  intros Hpq. induction l as [|x l IH]; simpl; [done|]. by rewrite Hpq, IH.
Qed.

Lemma takewhile_mono {A} (p q : A → bool) l :
  (∀ x, p x = true → q x = true) →
  length (takewhile p l) ≤ length (takewhile q l).
Proof.
  intros Hpq. induction l as [|x l IH]; simpl; [done|].
  destruct (p x) eqn:E; simpl; [|lia]. rewrite (Hpq x E). simpl. lia.
Qed.

(** The compound resolver is the left half of the auxiliary resolver
    run with "compound" as the only auxiliary label. *)
Theorem compound_span_as_auxiliary_span d i :
  ∃ m M,
    get_span_for_compound_noun d i = Ok (m, Z.of_nat i)
    ∧ get_span_for_verb_auxiliaries {[ "compound" ]} d i = Ok (m, M).
Proof.
  eexists _, _. split; [reflexivity|].
  unfold get_span_for_verb_auxiliaries. do 5 f_equal.
  apply takewhile_ext. intros x. apply bool_decide_ext.
  by rewrite elem_of_singleton.
Qed.

(** A larger set of auxiliary labels never narrows the span. *)
Theorem more_labels_wider_span (DEPS DEPS' : gset string) d verb :
  DEPS ⊆ DEPS' →
  ∃ m M m' M',
    get_span_for_verb_auxiliaries DEPS d verb = Ok (m, M)
    ∧ get_span_for_verb_auxiliaries DEPS' d verb = Ok (m', M')
    ∧ (m' ≤ m)%Z ∧ (M ≤ M')%Z.
Proof.
  intros Hsub. eexists _, _, _, _. split; [reflexivity|]. split; [reflexivity|].
  assert (∀ x, bool_decide (Token.dep_ (tok d x) ∈ DEPS) = true →
               bool_decide (Token.dep_ (tok d x) ∈ DEPS') = true) as Hpq.
  { intros x Hx%bool_decide_eq_true. by apply bool_decide_eq_true, Hsub. }
  pose proof (takewhile_mono _ _ (reverse (lefts d verb)) Hpq).
  pose proof (takewhile_mono _ _ (rights d verb) Hpq). lia.
Qed.

Lemma more_labels_wider_span_witness :
  ∃ m M m' M',
    get_span_for_verb_auxiliaries ({[ "aux" ]}) Ex.had_not_been_running 3
      = Ok (m, M)
    ∧ get_span_for_verb_auxiliaries Ex.AUX_DEPS Ex.had_not_been_running 3
      = Ok (m', M')
    ∧ (m' ≤ m)%Z ∧ (M ≤ M')%Z.
Proof.
  apply (more_labels_wider_span {[ "aux" ]} Ex.AUX_DEPS Ex.had_not_been_running 3).
  unfold Ex.AUX_DEPS. apply union_subseteq_l', union_subseteq_l.
Defined.

(** ** Span tuples *)

Lemma tok_beyond d i : doc_len d ≤ i → tok d i = Token.blank.
Proof. intros Hi. unfold tok. by rewrite lookup_ge_None_2. Qed.

Lemma resolve_fresh d sl :
  Span.end_ sl ≤ doc_len d → resolve d (span_of d sl) = Ok sl.
Proof.
  intros He. unfold resolve, span_of; simpl.
  rewrite bool_decide_eq_false_2; [done|].
  intros [Hlen|[Hs|Hl]]; [lia| |].
  - destruct (decide (Span.start sl < doc_len d)); [done|].
    rewrite tok_beyond in Hs by lia. done.
  - by destruct (Span.end_ sl).
Qed.

Lemma span_getitem_fresh d sl :
  Span.end_ sl ≤ doc_len d →
  (Span.end_ sl ≤ Span.start sl →
     ∃ msg, span_getitem d (span_of d sl) 0 = Raise (IndexError msg))
  ∧ (Span.start sl < Span.end_ sl →
     span_getitem d (span_of d sl) 0 = Ok (Span.start sl)
     ∧ span_getitem d (span_of d sl) (-1) = Ok (Span.end_ sl - 1)).
Proof.
  intros He. unfold span_getitem. rewrite resolve_fresh by done. simpl. split.
  - intros Hle. rewrite decide_False by lia. by eexists.
  - intros Hlt. rewrite !decide_True by lia. split.
    + rewrite Z.add_0_r. apply doc_getitem_in_range. lia.
    + replace (Z.of_nat (Span.end_ sl) + -1)%Z
        with (Z.of_nat (Span.end_ sl - 1)) by lia.
      apply doc_getitem_in_range. lia.
Qed.

Lemma words_to_root_cases fuel : ∀ d i,
  (∃ n, words_to_root fuel d i = Ok n)
  ∨ (∃ msg, words_to_root fuel d i = Raise (RuntimeError msg)).
Proof.
  induction fuel as [|fuel IH]; intros d i; simpl; [right; by eexists|].
  destruct (decide _) as [Hroot|Hmove]; [left; by eexists|].
  destruct (IH d (Token.head (tok d i))) as [[w ->]|[msg ->]]; simpl;
    [left|right]; by eexists.
Qed.

Lemma nearest_to_root_cases d lo hi l : ∀ best root,
  (∃ r, nearest_to_root d lo hi l best root = Ok r
        ∧ (r = root ∨ ∃ i, r = Some i ∧ i ∈ l))
  ∨ (∃ msg, nearest_to_root d lo hi l best root = Raise (RuntimeError msg)).
Proof.
  induction l as [|i l IH]; intros best root; simpl.
  - left. eexists. split; [done|]. by left.
  - assert (∀ best' root',
      root' = root ∨ root' = Some i →
      (∃ r, nearest_to_root d lo hi l best' root' = Ok r
            ∧ (r = root ∨ ∃ j, r = Some j ∧ j ∈ i :: l))
      ∨ (∃ msg, nearest_to_root d lo hi l best' root' = Raise (RuntimeError msg)))
      as Hstep.
    { intros best' root' Hroot'.
      destruct (IH best' root') as [(r & -> & Hr)|[msg ->]]; [left|right; by eexists].
      eexists. split; [done|].
      destruct Hr as [->|(j & -> & Hj)].
      - destruct Hroot' as [->| ->]; [by left|right]. eexists. split; [done|left].
      - right. eexists. split; [done|by right]. }
    destruct (bool_decide _); [apply Hstep; by left|].
    unfold _count_words_to_root. destruct (is_space _); simpl.
    + destruct (decide _); apply Hstep; auto.
    + destruct (words_to_root_cases (doc_len d) d i) as [[w ->]|[msg ->]]; simpl.
      * destruct (decide _); apply Hstep; auto.
      * right. by eexists.
Qed.

Lemma span_root_fresh d sl :
  Span.start sl < Span.end_ sl → Span.end_ sl ≤ doc_len d →
  (∃ root, span_root d (span_of d sl) = Ok root
           ∧ Span.start sl ≤ root < Span.end_ sl)
  ∨ (∃ msg, span_root d (span_of d sl) = Raise (RuntimeError msg)).
Proof.
  intros Hne He. unfold span_root. rewrite resolve_fresh by done. simpl.
  assert (∀ i, i ∈ span_tokens d sl → Span.start sl ≤ i < Span.end_ sl) as Hin.
  { intros i Hi%elem_of_seq. lia. }
  destruct (list_find _ _) as [[k i]|] eqn:Ef.
  - apply list_find_Some in Ef as (Hk%list_elem_of_lookup_2 & _ & _).
    apply Hin in Hk. left. exists i.
    split; [apply doc_getitem_in_range; lia|done].
  - destruct (nearest_to_root_cases d (Span.start sl) (Span.end_ sl)
                (span_tokens d sl) (doc_len d) None)
      as [(r & -> & Hr)|[msg ->]]; simpl; [left|right; by eexists].
    destruct Hr as [->|(i & -> & Hi%Hin)]; simpl.
    + exists (Span.start sl). split; [apply doc_getitem_in_range; lia|lia].
    + exists i. split; [apply doc_getitem_in_range; lia|done].
Qed.

Lemma nearest_to_root_returns d lo hi l : ∀ best root,
  (∀ i, i ∈ l → ∃ n, words_to_root (doc_len d) d i = Ok n) →
  ∃ r, nearest_to_root d lo hi l best root = Ok r.
Proof.
  induction l as [|i l IH]; intros best root Hl; simpl; [by eexists|].
  assert (∀ j, j ∈ l → ∃ n, words_to_root (doc_len d) d j = Ok n) as Hl'
    by (intros j Hj; apply Hl; by right).
  destruct (bool_decide _); [by apply IH|].
  unfold _count_words_to_root. destruct (is_space _); simpl.
  - destruct (decide _); by apply IH.
  - destruct (Hl i) as [w ->]; [left|]. simpl. destruct (decide _); by apply IH.
Qed.

(** What [_span_to_tuple] gives for a span object on the document it was
    made on.  A span that covers no token makes the call raise an index
    error.  For a span that covers at least one token the call can only
    fail in the search for the root, with a runtime error, and it does
    not fail when every token of the span reaches the root of its
    sentence; the tuple it returns carries the offset at which the first
    token starts, the offset at which the last token ends, the tag of
    one of the span's own tokens, the text of the span and its label. *)
Theorem _span_to_tuple_fresh d sl :
  Span.end_ sl ≤ doc_len d →
  (Span.end_ sl ≤ Span.start sl →
     ∃ msg, _span_to_tuple d (span_of d sl) = Raise (IndexError msg))
  ∧ (Span.start sl < Span.end_ sl →
     (∃ root,
        Span.start sl ≤ root < Span.end_ sl
        ∧ _span_to_tuple d (span_of d sl)
          = Ok (Token.idx (tok d (Span.start sl)),
                Token.idx (tok d (Span.end_ sl - 1))
                + token_len (tok d (Span.end_ sl - 1)),
                Token.tag_ (tok d root), span_text d sl, Span.label_ sl))
     ∨ (∃ msg, _span_to_tuple d (span_of d sl) = Raise (RuntimeError msg)))
  ∧ (Span.start sl < Span.end_ sl →
     (∀ i, Span.start sl ≤ i < Span.end_ sl →
           ∃ n, words_to_root (doc_len d) d i = Ok n) →
     ∃ t, _span_to_tuple d (span_of d sl) = Ok t).
Proof.
  intros He. destruct (span_getitem_fresh d sl He) as [Hempty Hfull].
  assert (Span.start sl < Span.end_ sl →
     (∃ root,
        Span.start sl ≤ root < Span.end_ sl
        ∧ _span_to_tuple d (span_of d sl)
          = Ok (Token.idx (tok d (Span.start sl)),
                Token.idx (tok d (Span.end_ sl - 1))
                + token_len (tok d (Span.end_ sl - 1)),
                Token.tag_ (tok d root), span_text d sl, Span.label_ sl))
     ∨ (∃ msg, _span_to_tuple d (span_of d sl) = Raise (RuntimeError msg)))
    as Hcases.
  { intros Hne. unfold _span_to_tuple.
    destruct (Hfull Hne) as [-> Hlast]. simpl. rewrite Hlast. simpl.
    destruct (span_root_fresh d sl Hne He) as [(root & -> & Hroot)|[msg ->]];
      simpl; [left|right; by eexists].
    exists root. split; [done|].
    unfold span_obj_text. rewrite resolve_fresh by done. simpl.
    rewrite Hlast. done. }
  split; [|split; [done|]].
  - intros Hle. unfold _span_to_tuple. destruct (Hempty Hle) as [msg ->].
    by eexists.
  - intros Hne Hrooted.
    destruct (Hcases Hne) as [(root & _ & ->)|[msg Hraise]]; [by eexists|].
    exfalso. revert Hraise. unfold _span_to_tuple.
    destruct (Hfull Hne) as [-> Hlast]. simpl. rewrite Hlast. simpl.
    unfold span_root. rewrite resolve_fresh by done. simpl.
    destruct (list_find _ _) as [[k i]|] eqn:Ef.
    + apply list_find_Some in Ef as (Hk%list_elem_of_lookup_2 & _ & _).
      apply elem_of_seq in Hk. rewrite doc_getitem_in_range by lia. simpl.
      unfold span_obj_text. rewrite resolve_fresh by done. simpl.
      by rewrite Hlast.
    + destruct (nearest_to_root_returns d (Span.start sl) (Span.end_ sl)
                  (span_tokens d sl) (doc_len d) None) as [r Hr].
      { intros i Hi%elem_of_seq. apply Hrooted. lia. }
      rewrite Hr. simpl.
      destruct (nearest_to_root_cases d (Span.start sl) (Span.end_ sl)
                  (span_tokens d sl) (doc_len d) None)
        as [(r' & Hr' & Hin)|[msg' Hr']]; [|congruence].
      assert (r' = r) as -> by congruence.
      assert (default (Span.start sl) r < doc_len d) as Hlt.
      { destruct Hin as [->|(i & -> & Hi%elem_of_seq)]; simpl; lia. }
      rewrite doc_getitem_in_range by done. simpl.
      unfold span_obj_text. rewrite resolve_fresh by done. simpl.
      by rewrite Hlast.
Qed.

Lemma _span_to_tuple_fresh_witness :
  (∃ msg, _span_to_tuple Ex.we_left_new_york
            (span_of Ex.we_left_new_york (Span.mk 3 3 "")) = Raise (IndexError msg))
  ∧ (∃ t, _span_to_tuple Ex.we_left_new_york
            (span_of Ex.we_left_new_york Ex.san_francisco) = Ok t).
Proof.
  destruct (_span_to_tuple_fresh Ex.we_left_new_york (Span.mk 3 3 ""))
    as (Hempty & _ & _); [vm_compute; lia|].
  destruct (_span_to_tuple_fresh Ex.we_left_new_york Ex.san_francisco)
    as (_ & _ & Hfull); [vm_compute; lia|].
  split; [apply Hempty; simpl; lia|].
  apply Hfull; [simpl; lia|].
  intros i Hi. simpl in Hi.
  assert (i = 6 ∨ i = 7) as [-> | ->] by lia; eexists; reflexivity.
Defined.

Example san_francisco_tuple :
  _span_to_tuple Ex.we_left_new_york
    (span_of Ex.we_left_new_york Ex.san_francisco)
  = Ok (25, 38, "NNP", "San Francisco", "GPE").
Proof. reflexivity. Qed.
